(** * A shallow embedding of the RAG chatbot

    The development follows the two Python modules of the repository:

    - [rag_utils]: [load_and_chunk] (corpus loader) and [prompt_tpl]
      (prompt template);
    - [chatbot]: the Streamlit script, whose chat-input branch runs one
      query turn (append the question, trim the history, retrieve, compose
      the prompt, stream the answer, append the reply).

    Python [str] values are sequences of Unicode code points, Python [int]
    values are [Z].  Calls that may raise return a sum or an option; calls
    into the external libraries (text splitter, vector store, chat model)
    are parameters of the model. *)

From Stdlib Require Import String Ascii.
From Stdlib Require Import List NArith ZArith Lia Bool.
Import ListNotations.

Set Implicit Arguments.

(** ** Python strings and lists *)

Module Py.

(** A [str] is a sequence of code points. *)
Definition str := list N.

(** An ASCII literal, as code points. *)
Definition lit (s : string) : str := map N_of_ascii (list_ascii_of_string s).

Definition NL : str := [10%N].
Definition DQUOTE : str := [34%N].

Fixpoint str_eqb (a b : str) : bool :=
  match a, b with
  | [], [] => true
  | x :: a', y :: b' => N.eqb x y && str_eqb a' b'
  | _, _ => false
  end.

(** The exceptions the program catches with [except Exception as e];
    [str(e)] is the message. *)
Inductive Exception := Raise (msg : str).

Definition str_of_exn (e : Exception) : str := let 'Raise m := e in m.

(** [len(l)] *)
Definition len {A} (l : list A) : Z := Z.of_nat (length l).

(** [l[start:]], for any integer [start]: a negative [start] counts from
    the end, and both ends are clamped to the list. *)
Definition slice_from {A} (start : Z) (l : list A) : list A :=
  let i := if (start <? 0)%Z then Z.max (len l + start) 0 else Z.min start (len l) in
  skipn (Z.to_nat i) l.

(** [sep.join(parts)] *)
Fixpoint join (sep : str) (parts : list str) : str :=
  match parts with
  | [] => []
  | [p] => p
  | p :: rest => p ++ sep ++ join sep rest
  end.

(** [s.endswith(suffix)] *)
Definition endswith (suffix s : str) : bool :=
  (length suffix <=? length s)%nat
  && str_eqb (skipn (length s - length suffix) s) suffix.

(** Line boundaries of [str.splitlines]: LF, VT, FF, CR, FS, GS, RS, NEL,
    LS and PS; CR LF counts as one boundary. *)
Definition is_linebreak (c : N) : bool :=
  existsb (N.eqb c) [10; 11; 12; 13; 28; 29; 30; 133; 8232; 8233]%N.

(** [splitlines_from cur s]: [cur] is the current line, reversed. *)
Fixpoint splitlines_from (cur : str) (s : str) : list str :=
  match s with
  | [] => match cur with [] => [] | _ => [rev cur] end
  | c :: s' =>
      if is_linebreak c then
        match s' with
        | d :: s'' =>
            if N.eqb c 13 && N.eqb d 10
            then rev cur :: splitlines_from [] s''
            else rev cur :: splitlines_from [] s'
        | [] => rev cur :: splitlines_from [] s'
        end
      else splitlines_from (c :: cur) s'
  end.

Definition splitlines (s : str) : list str := splitlines_from [] s.

(** Whitespace of [str.strip()] ([str.isspace] on one character). *)
Definition is_space (c : N) : bool :=
  ((9 <=? c) && (c <=? 13) || (28 <=? c) && (c <=? 32)
   || (8192 <=? c) && (c <=? 8202)
   || existsb (N.eqb c) [133; 160; 5760; 8232; 8233; 8239; 8287; 12288])%N.

Fixpoint lstrip (s : str) : str :=
  match s with
  | c :: s' => if is_space c then lstrip s' else s
  | [] => []
  end.

Definition rstrip (s : str) : str := rev (lstrip (rev s)).

Definition strip (s : str) : str := rstrip (lstrip s).

(** Truth value of a string: non-empty. *)
Definition truthy (s : str) : bool :=
  match s with [] => false | _ => true end.

(** [s.startswith(prefix)] *)
Fixpoint startswith (prefix s : str) : bool :=
  match prefix, s with
  | [], _ => true
  | p :: prefix', c :: s' => N.eqb p c && startswith prefix' s'
  | _ :: _, [] => false
  end.

(** [pat in s]: [pat] occurs somewhere in [s]. *)
Fixpoint str_in (pat s : str) : bool :=
  startswith pat s
  || match s with
     | [] => false
     | _ :: s' => str_in pat s'
     end.

(** [s.rfind(c)] for a single character: the index of its last
    occurrence, [None] where Python gives -1. *)
Fixpoint rfind (c : N) (s : str) : option nat :=
  match s with
  | [] => None
  | x :: s' =>
      match rfind c s' with
      | Some i => Some (S i)
      | None => if N.eqb x c then Some 0%nat else None
      end
  end.

(** [os.path.basename(p)] on POSIX: what follows the last slash. *)
Definition basename (p : str) : str :=
  match rfind 47 p with
  | Some i => skipn (S i) p
  | None => p
  end.

(** [PurePath(name).stem]: the name without its last suffix; a dot in
    first or last place does not start a suffix. *)
Definition stem (name : str) : str :=
  match rfind 46 name with
  | Some i =>
      if (0 <? i)%nat && (i <? length name - 1)%nat then firstn i name else name
  | None => name
  end.

(** *** Reading text from bytes *)

(** A [bytes] value: numbers below 256. *)
Definition bytes := list N.

(** Where the UTF-8 decoder stands between two bytes: at the start of a
    character, or inside one, with [more] bytes to come after the next, the
    bits [acc] read so far, and the next byte due in [lo..hi]. *)
Inductive Utf8State :=
| Utf8Start
| Utf8Cont (more : nat) (acc lo hi : N).

(** What a byte read at the start of a character is: a whole character, the
    lead byte of a longer one, or a byte that cannot start a character
    (a continuation byte, 0xC0, 0xC1 or 0xF5 and above).  The lead bytes
    0xE0, 0xED, 0xF0 and 0xF4 narrow the range of the byte after them, which
    rules out overlong forms, surrogates and code points above 0x10FFFF. *)
Inductive Utf8Lead :=
| Utf8Char (c : N)
| Utf8Enter (st : Utf8State)
| Utf8Invalid.

Definition utf8_lead (b : N) : Utf8Lead :=
  (if b <? 0x80 then Utf8Char b
   else if b <? 0xC2 then Utf8Invalid
   else if b <? 0xE0 then Utf8Enter (Utf8Cont 0 (b - 0xC0) 0x80 0xBF)
   else if b =? 0xE0 then Utf8Enter (Utf8Cont 1 0 0xA0 0xBF)
   else if b =? 0xED then Utf8Enter (Utf8Cont 1 0xD 0x80 0x9F)
   else if b <? 0xF0 then Utf8Enter (Utf8Cont 1 (b - 0xE0) 0x80 0xBF)
   else if b =? 0xF0 then Utf8Enter (Utf8Cont 2 0 0x90 0xBF)
   else if b <? 0xF4 then Utf8Enter (Utf8Cont 2 (b - 0xF0) 0x80 0xBF)
   else if b =? 0xF4 then Utf8Enter (Utf8Cont 2 4 0x80 0x8F)
   else Utf8Invalid)%N.

(** One pass of the UTF-8 decoder over [s]: the text decoded when the bytes
    that are in error are left out, and whether any byte was in error.  A
    character broken off by a byte out of range is in error up to that
    byte, which is then read as the start of a character; a character
    broken off by the end of the data is in error. *)
Fixpoint utf8_scan (st : Utf8State) (s : bytes) : str * bool :=
  match s with
  | [] => ([], match st with Utf8Start => false | Utf8Cont _ _ _ _ => true end)
  | b :: rest =>
      let at_start (bad : bool) :=
        match utf8_lead b with
        | Utf8Char c =>
            let '(text, err) := utf8_scan Utf8Start rest in (c :: text, bad || err)
        | Utf8Enter st' =>
            let '(text, err) := utf8_scan st' rest in (text, bad || err)
        | Utf8Invalid =>
            let '(text, _) := utf8_scan Utf8Start rest in (text, true)
        end in
      match st with
      | Utf8Start => at_start false
      | Utf8Cont more acc lo hi =>
          if ((lo <=? b) && (b <=? hi))%N then
            let acc' := (acc * 64 + (b - 0x80))%N in
            match more with
            | O =>
                let '(text, err) := utf8_scan Utf8Start rest in (acc' :: text, err)
            | S more' => utf8_scan (Utf8Cont more' acc' 0x80 0xBF) rest
            end
          else at_start true
      end
  end.

(** [b.decode("utf-8", errors="ignore")]: never raises. *)
Definition decode_utf8_ignore (b : bytes) : str := fst (utf8_scan Utf8Start b).

(** [b.decode("utf-8")] with the default [errors="strict"]: [None] where
    Python raises [UnicodeDecodeError]. *)
Definition decode_utf8_strict (b : bytes) : option str :=
  let '(text, err) := utf8_scan Utf8Start b in
  if err then None else Some text.

(** What a file opened in text mode with the default [newline=None] does to
    the decoded text: CR LF and a lone CR are read as LF. *)
Fixpoint universal_newlines (s : str) : str :=
  match s with
  | [] => []
  | c :: rest =>
      if N.eqb c 13 then
        10%N :: match rest with
                | d :: rest' =>
                    if N.eqb d 10 then universal_newlines rest' else universal_newlines rest
                | [] => []
                end
      else c :: universal_newlines rest
  end.

End Py.

Import Py.

(** ** rag_utils.py *)

Module rag_utils.

(** *** [load_and_chunk] *)

(** A directory entry as [load_and_chunk] sees it: its name and what
    [fp.read_text(encoding="utf-8", errors="ignore")] does on it, either
    raising or returning the decoded text (undecodable bytes are dropped by
    [errors="ignore"], so decoding itself does not raise). *)
Record DirEntry := {
  name : str;
  read_text : Exception + str
}.

(** A folder: its entries in iteration order. *)
Definition Folder := list DirEntry.

(** A file on disk: its name and what opening it and reading its bytes
    does, either raising ([OSError]: no permission, a directory, ...) or
    returning the bytes. *)
Record File := {
  file_name : str;
  read_bytes : Exception + bytes
}.

(** [Path.read_text(encoding="utf-8", errors="ignore")] on a file: the
    file is opened in text mode, its bytes are decoded with the invalid ones
    dropped, and line ends are translated.  Only opening and reading can
    raise. *)
Definition path_read_text (f : File) : Exception + str :=
  match read_bytes f with
  | inl e => inl e
  | inr b => inr (universal_newlines (decode_utf8_ignore b))
  end.

(** The directory entry of a file. *)
Definition dir_entry (f : File) : DirEntry :=
  {| name := file_name f; read_text := path_read_text f |}.

(** [data_dir.glob("*.txt")] *)
Definition glob_txt (folder : Folder) : list DirEntry :=
  filter (fun fp => endswith (lit ".txt") (name fp)) folder.

(** The metadata dict [{"source": fp.name}]. *)
Record Meta := { source : str }.

(** Lines written by [print]. *)
Inductive Printed :=
| CouldNotRead (file : str) (e : Exception)
| Loaded (documents chunks : Z).

(** ["\n".join([ln.strip() for ln in raw.splitlines() if ln.strip()])] *)
Definition clean (raw : str) : str :=
  join NL (map strip (filter (fun ln => truthy (strip ln)) (splitlines raw))).

(** The first loop: read and clean every file, skipping those whose read
    raises.  Returns [texts], [metas] and the warnings printed. *)
Fixpoint read_files (files : list DirEntry) : list str * list Meta * list Printed :=
  match files with
  | [] => ([], [], [])
  | fp :: rest =>
      let '(texts, metas, out) := read_files rest in
      match read_text fp with
      | inl e => (texts, metas, CouldNotRead (name fp) e :: out)
      | inr raw => (clean raw :: texts, {| source := name fp |} :: metas, out)
      end
  end.

(** The check that the constructor of the library's text splitter makes on
    its parameters: [RecursiveCharacterTextSplitter(chunk_size,
    chunk_overlap)] raises [ValueError] unless [chunk_size > 0] and
    [0 <= chunk_overlap <= chunk_size]. *)
Definition valid_parameters (chunk_size overlap : Z) : bool :=
  ((0 <? chunk_size) && (0 <=? overlap) && (overlap <=? chunk_size))%Z.

Section Splitter.

(** [RecursiveCharacterTextSplitter(chunk_size, chunk_overlap).split_text],
    the text splitter of the external library, for parameters that its
    constructor accepts: any function from a text to its chunks.  What the
    library does to split is outside the model. *)
Variable split_text : Z -> Z -> str -> list str.

(** The [ValueError] that the constructor raises for parameters that it
    rejects. *)
Variable parameter_error : Z -> Z -> Exception.

(** The second loop: every chunk of a text is appended together with the
    metadata of that text. *)
Fixpoint chunk_texts (chunk_size overlap : Z) (docs : list (str * Meta))
  : list str * list Meta :=
  match docs with
  | [] => ([], [])
  | (txt, meta) :: rest =>
      let cs := split_text chunk_size overlap txt in
      let '(chunks, chunk_metas) := chunk_texts chunk_size overlap rest in
      (cs ++ chunks, map (fun _ => meta) cs ++ chunk_metas)
  end.

(** [load_and_chunk(folder, chunk_size, overlap)]: what it returns or
    raises, and what it prints.  The splitter is built after the first
    loop and outside any [try]: when its constructor raises, the warnings
    have been printed, the function raises, and neither the lists nor the
    summary line come out. *)
Definition load_and_chunk (folder : Folder) (chunk_size overlap : Z)
  : (Exception + (list str * list Meta)) * list Printed :=
  let '(texts, metas, out) := read_files (glob_txt folder) in
  if valid_parameters chunk_size overlap then
    let '(chunks, chunk_metas) := chunk_texts chunk_size overlap (combine texts metas) in
    (inr (chunks, chunk_metas), out ++ [Loaded (len texts) (len chunks)])
  else (inl (parameter_error chunk_size overlap), out).

End Splitter.

(** *** [prompt_tpl] *)

(** Keyword arguments of a call, in the order given. *)
Definition Kwargs := list (str * str).

Fixpoint kwarg (key : str) (kwargs : Kwargs) : option str :=
  match kwargs with
  | [] => None
  | (k, v) :: rest => if str_eqb k key then Some v else kwarg key rest
  end.

Definition LBRACE : N := 123.
Definition RBRACE : N := 125.

(** Characters that start a conversion, a format specification, an
    attribute or an index inside a replacement field. *)
Definition is_field_syntax (c : N) : bool :=
  existsb (N.eqb c) [LBRACE; 33; 58; 46; 91]%N.

(** A field name made of decimal digits is the index of a positional
    argument. *)
Definition is_index (field_name : str) : bool :=
  truthy field_name && forallb (fun c => (48 <=? c) && (c <=? 57))%N field_name.

(** Where the scan of a format string stands: in literal text, just after
    an opening brace, inside the name of a replacement field (the name so
    far, reversed), or just after a closing brace met in literal text. *)
Inductive Scan :=
| InText
| AfterOpen
| InField (name_rev : str)
| AfterClose.

(** [template.format] with keyword arguments only, for an f-string style
    template whose replacement fields are plain names.  A doubled brace is
    a literal brace; [{name}] is replaced by the argument of that name,
    inserted as it is.  [None] stands for the exception Python raises: a
    single brace, an unclosed field, a field without a name or with an
    index (there is no positional argument), or a name that is not among
    the arguments; fields with conversions, format specifications,
    attributes or subscripts are outside the model and also give [None]. *)
Fixpoint vformat (kwargs : Kwargs) (st : Scan) (template : str) : option str :=
  match template with
  | [] => match st with InText => Some [] | _ => None end
  | c :: rest =>
      match st with
      | InText =>
          if N.eqb c LBRACE then vformat kwargs AfterOpen rest
          else if N.eqb c RBRACE then vformat kwargs AfterClose rest
          else option_map (cons c) (vformat kwargs InText rest)
      | AfterOpen =>
          if N.eqb c LBRACE then option_map (cons LBRACE) (vformat kwargs InText rest)
          else if N.eqb c RBRACE then None
          else if is_field_syntax c then None
          else vformat kwargs (InField [c]) rest
      | InField name_rev =>
          if N.eqb c RBRACE then
            if is_index (rev name_rev) then None
            else
              match kwarg (rev name_rev) kwargs with
              | Some v => option_map (app v) (vformat kwargs InText rest)
              | None => None
              end
          else if is_field_syntax c then None
          else vformat kwargs (InField (c :: name_rev)) rest
      | AfterClose =>
          if N.eqb c RBRACE then option_map (cons RBRACE) (vformat kwargs InText rest)
          else None
      end
  end.

(** A [PromptTemplate]: its input variables and its template string. *)
Record PromptTemplate := {
  input_variables : list str;
  template : str
}.

Definition format (tpl : PromptTemplate) (kwargs : Kwargs) : option str :=
  vformat kwargs InText (template tpl).

(** The bullet character U+2022 that starts each guideline. *)
Definition BULLET : str := [8226%N].

(** The sentence the model is told to say when the context does not hold
    the answer. *)
Definition no_information : str := lit "I don't have that information in my documents.".

Definition prompt_tpl : PromptTemplate := {|
  input_variables := [lit "context"; lit "question"];
  template :=
    NL
    ++ lit "You are a friendly and helpful travel assistant. Answer the user's question using ONLY the provided context." ++ NL
    ++ NL
    ++ lit "Guidelines:" ++ NL
    ++ BULLET ++ lit " Be concise but informative" ++ NL
    ++ BULLET ++ lit " If the answer is in the context, provide it directly" ++ NL
    ++ BULLET ++ lit " If you don't know or it's not in the context, say "
         ++ DQUOTE ++ no_information ++ DQUOTE ++ NL
    ++ BULLET ++ lit " Use a warm, helpful tone" ++ NL
    ++ BULLET ++ lit " End with a brief follow-up like "
         ++ DQUOTE ++ lit "Is there anything else you'd like to know?" ++ DQUOTE ++ NL
    ++ NL
    ++ lit "Context:" ++ NL
    ++ lit "{context}" ++ NL
    ++ NL
    ++ lit "Question:" ++ NL
    ++ lit "{question}" ++ NL
    ++ NL
    ++ lit "Answer:" ++ NL
|}.

(** [prompt_tpl.format(context=context, question=question)] *)
Definition format_prompt (context question : str) : option str :=
  format prompt_tpl [(lit "context", context); (lit "question", question)].

End rag_utils.

(** ** chatbot.py *)

Module chatbot.

Import rag_utils.

(** *** Messages, documents and the external services *)

Inductive Message :=
| HumanMessage (content : str)
| AIMessage (content : str).

Definition message_content (m : Message) : str :=
  match m with HumanMessage c | AIMessage c => c end.

(** The display draws a message as the assistant's unless it is a
    [HumanMessage]. *)
Definition is_assistant (m : Message) : bool :=
  match m with HumanMessage _ => false | AIMessage _ => true end.

(** A retrieved document. *)
Record Document := {
  page_content : str;
  metadata : Meta
}.

(** The vector store: [store.similarity_search(query, k=k)] raises or
    returns documents. *)
Record VectorStore := {
  similarity_search : str -> Z -> Exception + list Document
}.

(** A fragment of a streamed answer; its content may be [None]. *)
Record AIMessageChunk := { content : option str }.

(** The chat model: [llm.stream(messages)] yields fragments and then
    either ends ([None]) or raises ([Some e]), possibly before the first
    fragment. *)
Record ChatModel := {
  stream : list Message -> list AIMessageChunk * option Exception
}.

(** *** Session state *)

Record SessionState := {
  history : list Message;
  last_docs : list Document
}.

Definition initial_session : SessionState :=
  {| history := []; last_docs := [] |}.

Definition MAX_HISTORY_TURNS : Z := 10.

(** What the script draws, in order. *)
Inductive Shown :=
| UserBubble (text : str)
| StError (text : str)
| StInfo (text : str)
| DebugPrompt (prompt : str)
| Streaming (text : str)
| FinalAnswer (text : str)
| PlaceholderEmptied.

(** *** One query turn *)

(** Trim history if too long. *)
Definition trim_history (h : list Message) : list Message :=
  if (len h >? MAX_HISTORY_TURNS * 2)%Z
  then slice_from (- MAX_HISTORY_TURNS * 2)%Z h
  else h.

(** The history once the question is appended and the history trimmed. *)
Definition ask (user_input : str) (h : list Message) : list Message :=
  trim_history (h ++ [HumanMessage user_input]).

(** Retrieve relevant documents: the context, the new [last_docs] and what
    is drawn. *)
Definition retrieve (store : VectorStore) (user_input : str) (k_docs : Z)
  : str * list Document * list Shown :=
  match similarity_search store user_input k_docs with
  | inr docs => (join (NL ++ NL) (map page_content docs), docs, [])
  | inl e => ([], [], [StError (lit " Retrieval error: " ++ str_of_exn e)])
  end.

(** [chunk.content or ""] *)
Definition content_or_empty (chunk : AIMessageChunk) : str :=
  match content chunk with
  | Some s => s
  | None => []
  end.

(** The streaming loop: every fragment is added to [collected_response]
    and the text so far is drawn. *)
Fixpoint consume (collected_response : str) (chunks : list AIMessageChunk)
  : str * list Shown :=
  match chunks with
  | [] => (collected_response, [])
  | chunk :: rest =>
      let collected_response := collected_response ++ content_or_empty chunk in
      let '(final, shown) := consume collected_response rest in
      (final, Streaming collected_response :: shown)
  end.

(** The reply recorded when the generation call raises. *)
Definition error_reply : str :=
  lit "I encountered an error. Please check your API key or try again.".

(** Stream response: [collected_response] after the [try] statement and
    what is drawn.  The elapsed time shown with the final answer is not
    modelled. *)
Definition stream_response (llm : ChatModel) (full_prompt : str) : str * list Shown :=
  let '(chunks, raised) := stream llm [HumanMessage full_prompt] in
  let '(collected_response, shown) := consume [] chunks in
  match raised with
  | None => (collected_response, shown ++ [FinalAnswer collected_response])
  | Some e =>
      (error_reply,
       shown ++ [StError (lit " API Error: " ++ str_of_exn e);
                 StInfo (lit " Check your API key or try a different model.");
                 PlaceholderEmptied])
  end.

(** What one run of the script is given: the cached resources, the
    sidebar settings and the text submitted in the chat input. *)
Record Turn := {
  store : VectorStore;
  llm : ChatModel;
  k_docs : Z;
  show_debug : bool;
  user_input : str
}.

(** The script's variables once the turn is over. *)
Record TurnVars := {
  context : str;
  full_prompt : str;
  collected_response : str
}.

(** Retrieval, prompt and generation of a turn: the new [last_docs], the
    variables and what is drawn.  [None]: an exception nobody catches
    ends the run. *)
Definition respond (t : Turn) : option (list Document * TurnVars * list Shown) :=
  let '(context, docs, shown_retrieval) := retrieve (store t) (user_input t) (k_docs t) in
  match format_prompt context (user_input t) with
  | None => None
  | Some full_prompt =>
      let shown_debug := if show_debug t then [DebugPrompt full_prompt] else [] in
      let '(collected_response, shown_stream) := stream_response (llm t) full_prompt in
      Some (docs,
            {| context := context;
               full_prompt := full_prompt;
               collected_response := collected_response |},
            shown_retrieval ++ shown_debug ++ shown_stream)
  end.

(** The body of [if user_input:]. *)
Definition query_turn (t : Turn) (st : SessionState)
  : option (SessionState * TurnVars * list Shown) :=
  let h := ask (user_input t) (history st) in
  match respond t with
  | None => None
  | Some (docs, vars, shown) =>
      Some ({| history := h ++ [AIMessage (collected_response vars)];
               last_docs := docs |},
            vars,
            UserBubble (user_input t) :: shown)
  end.

(** *** The other writers of the history *)

(** [s.split(" ", 1)[1] if " " in s else s]: what follows the first
    space, or [None] when there is no space. *)
Fixpoint after_first_space (s : str) : option str :=
  match s with
  | [] => None
  | c :: rest => if N.eqb c 32 then Some rest else after_first_space rest
  end.

Definition clean_text (suggestion_text : str) : str :=
  match after_first_space suggestion_text with
  | Some rest => rest
  | None => suggestion_text
  end.

(** The suggestion buttons of the welcome screen; each label starts with
    an emoji. *)
Definition suggestions : list str :=
  [ [128203%N] ++ lit " What services are available?";
    [128176%N] ++ lit " Tell me about the prices";
    [127919%N] ++ lit " What activities can I do?" ].

(** What the user does in one run of the script: press the [i]-th
    suggestion button, press Clear, or submit a question. *)
Inductive Action :=
| Suggest (i : nat)
| Clear
| Ask (t : Turn).

(** One run of the script.  The suggestion buttons are drawn only while
    the history is empty, and the query turn runs only [if user_input:],
    on a non-empty text. *)
Definition step (a : Action) (st : SessionState) : option SessionState :=
  match a with
  | Suggest i =>
      match history st, nth_error suggestions i with
      | [], Some suggestion_text =>
          Some {| history := history st ++ [HumanMessage (clean_text suggestion_text)];
                  last_docs := last_docs st |}
      | _, _ => Some st
      end
  | Clear => Some {| history := []; last_docs := [] |}
  | Ask t =>
      if truthy (user_input t)
      then option_map (fun r => fst (fst r)) (query_turn t st)
      else Some st
  end.

Fixpoint run (actions : list Action) (st : SessionState) : option SessionState :=
  match actions with
  | [] => Some st
  | a :: rest =>
      match step a st with
      | None => None
      | Some st' => run rest st'
      end
  end.

(** *** Source documents *)

(** [doc.page_content[:400]], followed by three dots when the content is
    longer. *)
Definition content_preview (page_content : str) : str :=
  let content_preview := firstn 400 page_content in
  if (len page_content >? 400)%Z
  then content_preview ++ lit "..."
  else content_preview.

(** One card of the panel: its number, the source name and the preview. *)
Record SourceCard := {
  idx : Z;
  source_name : str;
  card_preview : str
}.

(** [for idx, doc in enumerate(docs, idx)].  The metadata of a
    [Document] always holds a source, so [metadata.get('source',
    'Unknown')] is that source. *)
Fixpoint source_cards (idx : Z) (docs : list Document) : list SourceCard :=
  match docs with
  | [] => []
  | doc :: rest =>
      {| idx := idx;
         source_name := source (metadata doc);
         card_preview := content_preview (page_content doc) |}
      :: source_cards (idx + 1) rest
  end.

(** The cards drawn at the end of a run: none unless [show_sources] is
    on and [last_docs] is not empty. *)
Definition source_documents (show_sources : bool) (st : SessionState)
  : list SourceCard :=
  if show_sources && (match last_docs st with [] => false | _ => true end)
  then source_cards 1 (last_docs st)
  else [].

End chatbot.

(** ** scripts/pdf_to_txt.py *)

Module pdf_to_txt.

Section Tools.

(** The external tools: images of the imaging library, its grayscale
    conversion (rows of levels from 0 to 255), the OCR engine, and the
    numbers in which the PDF library gives page sizes (only [0] and
    [w / 2] are computed). *)
Variable Image : Type.
Variable grayscale : Image -> list (list Z).
Variable image_to_string : list (list Z) -> str -> Exception + str.
Variable Num : Type.
Variable zero : Num.
Variable half : Num -> Num.

(** [lambda x: 0 if x < 150 else 255] *)
Definition bw_level (x : Z) : Z := if (x <? 150)%Z then 0%Z else 255%Z.

Definition preprocess_image_to_bw (image : Image) : list (list Z) :=
  map (map bw_level) (grayscale image).

(** A page or a part of a page: [extract_text()] raises, or returns
    [None] or a text; [to_image(resolution=300).original.convert("RGB")]
    raises or returns an image. *)
Record Region := {
  extract_text : Exception + option str;
  to_image : Exception + Image
}.

Record Page := {
  width : Num;
  height : Num;
  whole : Region;
  within_bbox : Num * Num * Num * Num -> Exception + Region
}.

(** The text of a region: the embedded text ([None] counts as empty), or
    the OCR of its black and white image when that text is blank. *)
Definition text_or_ocr (r : Region) (ocr_config : str) : Exception + str :=
  match extract_text r with
  | inl e => inl e
  | inr extracted =>
      let text := match extracted with Some s => s | None => [] end in
      if negb (truthy (strip text)) then
        match to_image r with
        | inl e => inl e
        | inr img => image_to_string (preprocess_image_to_bw img) ocr_config
        end
      else inr text
  end.

Definition extract_standard_page (page : Page) (ocr_config : str) : Exception + str :=
  text_or_ocr (whole page) ocr_config.

(** [any(pat in stripped for pat in noise_patterns)] *)
Definition is_noise (noise_patterns : list str) (line : str) : bool :=
  existsb (fun pat => str_in pat (strip line)) noise_patterns.

(** The loop that filters noise lines: a line is dropped when its
    stripped form holds a pattern; a line that is kept is kept as it is. *)
Fixpoint filter_noise (noise_patterns : list str) (lines : list str) : list str :=
  match lines with
  | [] => []
  | line :: rest =>
      if is_noise noise_patterns line
      then filter_noise noise_patterns rest
      else line :: filter_noise noise_patterns rest
  end.

(** [x or []], also [if x is None: x = []] *)
Definition or_empty (patterns : option (list str)) : list str :=
  match patterns with
  | Some l => l
  | None => []
  end.

Definition extract_two_column_page (page : Page) (ocr_config : str)
           (noise_patterns : option (list str)) : Exception + str :=
  let noise_patterns := or_empty noise_patterns in
  let w := width page in
  let h := height page in
  let mid := half w in
  let get_col_text x0 x1 :=
      match within_bbox page (x0, zero, x1, h) with
      | inl e => inl e
      | inr sl => text_or_ocr sl ocr_config
      end in
  match get_col_text zero mid with
  | inl e => inl e
  | inr left_txt =>
      match get_col_text mid w with
      | inl e => inl e
      | inr right_txt =>
          inr (join NL (filter_noise noise_patterns
                                     (splitlines (left_txt ++ NL ++ right_txt))))
      end
  end.

(** Lines written by [print]. *)
Inductive Line :=
| NoPdfFound (input_folder : str)
| Found (n : Z)
| Processing (name : str)
| Progress (i n : Z)
| Newline
| Saved (name : str)
| Error (e : Exception)
| Done.

Definition OCR_CONFIG : str := lit "--oem 3 --psm 6".

(** The loop over the pages, from page index [i] of [n]: the texts of the
    pages, or the exception that ended the loop, and the progress lines
    written until then. *)
Fixpoint extract_pages (is_two_column : bool) (noise_patterns : list str)
         (pages : list Page) (i n : Z) : (Exception + list str) * list Line :=
  match pages with
  | [] => (inr [], [])
  | page :: rest =>
      let txt :=
          if is_two_column
          then extract_two_column_page page OCR_CONFIG (Some noise_patterns)
          else extract_standard_page page OCR_CONFIG in
      match txt with
      | inl e => (inl e, [Progress (i + 1) n])
      | inr txt =>
          let '(pages_txt, out) :=
              extract_pages is_two_column noise_patterns rest (i + 1) n in
          (match pages_txt with
           | inl e => inl e
           | inr pages_txt => inr (txt :: pages_txt)
           end,
           Progress (i + 1) n :: out)
      end
  end.

(** [opened] is what [pdfplumber.open(pdf_path)] gives: an exception or
    the pages of the document. *)
Definition extract_text_from_pdf (pdf_path : str)
           (two_column_patterns noise_patterns : option (list str))
           (opened : Exception + list Page) : (Exception + str) * list Line :=
  let two_column_patterns := or_empty two_column_patterns in
  let noise_patterns := or_empty noise_patterns in
  let fname := basename pdf_path in
  let is_two_column := existsb (fun pat => str_in pat fname) two_column_patterns in
  match opened with
  | inl e => (inl e, [])
  | inr pages =>
      match extract_pages is_two_column noise_patterns pages 0 (len pages) with
      | (inl e, out) => (inl e, out)
      | (inr pages_txt, out) => (inr (join (NL ++ NL) pages_txt), out ++ [Newline])
      end
  end.

(** An entry of the input folder: [str(pdf_file)], whose last component
    is [pdf_file.name], and what opening it as a PDF gives. *)
Record PdfFile := {
  path : str;
  pdf_open : Exception + list Page
}.

(** Writing a text to a file of the output folder, [open(out_file, "w",
    encoding="utf-8")] and [f.write(txt)]: [None] when nothing is raised. *)
Variable write_text : str -> str -> option Exception.

(** [pdf_file.stem + ".txt"] *)
Definition out_name (pdf_file : PdfFile) : str :=
  stem (basename (path pdf_file)) ++ lit ".txt".

(** The loop over the PDF files: the files written, in order, with their
    text, and the lines printed. *)
Fixpoint convert_files (two_column_patterns noise_patterns : option (list str))
         (pdf_files : list PdfFile) : list (str * str) * list Line :=
  match pdf_files with
  | [] => ([], [])
  | pdf_file :: rest =>
      let '(written, out) := convert_files two_column_patterns noise_patterns rest in
      let '(txt, progress) :=
          extract_text_from_pdf (path pdf_file)
                                (Some (or_empty two_column_patterns))
                                (Some (or_empty noise_patterns))
                                (pdf_open pdf_file) in
      let started := Processing (basename (path pdf_file)) :: progress in
      match txt with
      | inl e => (written, started ++ Error e :: out)
      | inr txt =>
          match write_text (out_name pdf_file) txt with
          | Some e => (written, started ++ Error e :: out)
          | None =>
              ((out_name pdf_file, txt) :: written,
               started ++ Saved (out_name pdf_file) :: out)
          end
      end
  end.

(** [input_path.glob(pattern)] for the patterns [*.pdf] and [*.PDF] *)
Definition glob_suffix (suffix : str) (entries : list PdfFile) : list PdfFile :=
  filter (fun f => endswith suffix (basename (path f))) entries.

(** [mkdir] is what [output_path.mkdir(parents=True, exist_ok=True)]
    raises, if anything; nothing catches it. *)
Definition process_all_pdfs (input_folder : str) (entries : list PdfFile)
           (mkdir : option Exception)
           (two_column_patterns noise_patterns : option (list str))
  : Exception + (list (str * str) * list Line) :=
  match mkdir with
  | Some e => inl e
  | None =>
      let pdf_files := glob_suffix (lit ".pdf") entries
                       ++ glob_suffix (lit ".PDF") entries in
      match pdf_files with
      | [] => inr ([], [NoPdfFound input_folder])
      | _ =>
          let '(written, out) :=
              convert_files two_column_patterns noise_patterns pdf_files in
          inr (written, Found (len pdf_files) :: out ++ [Done])
      end
  end.

End Tools.

End pdf_to_txt.

(** ** Notions used by the statements *)

Module Spec.

Import rag_utils chatbot.

(** [sub in s]: [sub] occurs in [s] as a contiguous run. *)
Definition contains (sub s : str) : Prop :=
  exists before after, s = before ++ sub ++ after.

(** Whether reading the entry returns its text. *)
Definition readable (fp : DirEntry) : bool :=
  match read_text fp with inr _ => true | inl _ => false end.

(** The cleaned text and metadata of every readable file, in order. *)
Definition loaded_docs (files : list DirEntry) : list (str * Meta) :=
  flat_map (fun fp =>
              match read_text fp with
              | inr raw => [(clean raw, {| source := name fp |})]
              | inl _ => []
              end) files.

(** One warning for every file whose read raises, in order. *)
Definition warnings (files : list DirEntry) : list Printed :=
  flat_map (fun fp =>
              match read_text fp with
              | inl e => [CouldNotRead (name fp) e]
              | inr _ => []
              end) files.

(** The three parts of the rendered prompt around the context and the
    question. *)
Definition prompt_head : str :=
  NL
  ++ lit "You are a friendly and helpful travel assistant. Answer the user's question using ONLY the provided context." ++ NL
  ++ NL
  ++ lit "Guidelines:" ++ NL
  ++ BULLET ++ lit " Be concise but informative" ++ NL
  ++ BULLET ++ lit " If the answer is in the context, provide it directly" ++ NL
  ++ BULLET ++ lit " If you don't know or it's not in the context, say "
       ++ DQUOTE ++ no_information ++ DQUOTE ++ NL
  ++ BULLET ++ lit " Use a warm, helpful tone" ++ NL
  ++ BULLET ++ lit " End with a brief follow-up like "
       ++ DQUOTE ++ lit "Is there anything else you'd like to know?" ++ DQUOTE ++ NL
  ++ NL
  ++ lit "Context:" ++ NL.

Definition prompt_middle : str := NL ++ NL ++ lit "Question:" ++ NL.

Definition prompt_tail : str := NL ++ NL ++ lit "Answer:" ++ NL.

(** The prompt a turn sends to the chat model. *)
Definition prompt_of (t : Turn) : option str :=
  let '(context, _, _) := retrieve (store t) (user_input t) (k_docs t) in
  format_prompt context (user_input t).

(** What the generation call of a turn does: the fragments it yields and
    the exception it raises, if any. *)
Definition generation (t : Turn) : option (list AIMessageChunk * option Exception) :=
  option_map (fun p => stream (llm t) [HumanMessage p]) (prompt_of t).

(** The reply a turn records. *)
Definition reply (t : Turn) : option str :=
  option_map (fun r => collected_response (snd (fst r))) (respond t).

(** Number of assistant entries of a history. *)
Definition assistant_entries (h : list Message) : nat :=
  length (filter is_assistant h).

(** Every message appended to the history since it was last empty,
    starting from [log]. *)
Fixpoint conversation (log : list Message) (actions : list Action)
  : option (list Message) :=
  match actions with
  | [] => Some log
  | Suggest i :: rest =>
      match log, nth_error suggestions i with
      | [], Some suggestion_text =>
          conversation [HumanMessage (clean_text suggestion_text)] rest
      | _, _ => conversation log rest
      end
  | Clear :: rest => conversation [] rest
  | Ask t :: rest =>
      if truthy (user_input t) then
        match reply t with
        | None => None
        | Some r => conversation (log ++ [HumanMessage (user_input t); AIMessage r]) rest
        end
      else conversation log rest
  end.

(** *** Sample inputs *)

Definition halifax : DirEntry :=
  {| name := lit "halifax.txt";
     read_text := inr (lit "Halifax offers kayak tours and spa treatments. WiFi is available in the lobby.") |}.

Definition locked : DirEntry :=
  {| name := lit "locked.txt";
     read_text := inl (Raise (lit "Permission denied")) |}.

(** Files given by their bytes: one that cannot be opened; one whose bytes
    are the UTF-8 text "Café ouvert", a CR LF, then "Spa"; and one that is
    not valid UTF-8, with the byte 0xFF between "Spa " and "open". *)
Definition locked_file : File :=
  {| file_name := lit "locked.txt";
     read_bytes := inl (Raise (lit "Permission denied")) |}.

Definition cafe_file : File :=
  {| file_name := lit "cafe.txt";
     read_bytes := inr (lit "Caf" ++ [0xC3; 0xA9]%N ++ lit " ouvert"
                        ++ [13; 10]%N ++ lit "Spa") |}.

Definition garbled_file : File :=
  {| file_name := lit "garbled.txt";
     read_bytes := inr (lit "Spa " ++ [0xFF]%N ++ lit "open") |}.

(** A file that holds only whitespace. *)
Definition blank_entry : DirEntry :=
  {| name := lit "blank.txt";
     read_text := inr (lit "  " ++ NL ++ [9%N] ++ NL) |}.

(** A splitter that cuts a text in two halves, and an error for the
    parameters that the constructor rejects. *)
Definition in_halves (chunk_size overlap : Z) (txt : str) : list str :=
  [firstn (length txt / 2) txt; skipn (length txt / 2) txt].

Definition rejected (chunk_size overlap : Z) : Exception :=
  Raise (lit "Got a larger chunk overlap than chunk size, should be smaller.").

Definition halifax_doc : Document :=
  {| page_content := lit "Halifax offers kayak tours and spa treatments.";
     metadata := {| source := lit "halifax.txt" |} |}.

Definition one_doc_store : VectorStore :=
  {| similarity_search := fun _ _ => inr [halifax_doc] |}.

Definition broken_store : VectorStore :=
  {| similarity_search := fun _ _ => inl (Raise (lit "index unavailable")) |}.

Definition fragment (s : string) : AIMessageChunk := {| content := Some (lit s) |}.

Definition polite_llm : ChatModel :=
  {| stream := fun _ => ([fragment "Kayak tours "; fragment "are offered."], None) |}.

Definition failing_llm : ChatModel :=
  {| stream := fun _ => ([fragment "Kayak tours "; {| content := None |}],
                         Some (Raise (lit "rate limit exceeded"))) |}.

Definition kayak_turn (s : VectorStore) (m : ChatModel) : Turn :=
  {| store := s; llm := m; k_docs := 3; show_debug := false;
     user_input := lit "Tell me about the kayak tour." |}.

(** The [n]-th question of a scripted user: the single code point [n],
    so that the questions differ. *)
Definition numbered_turn (n : nat) : Turn :=
  {| store := one_doc_store; llm := polite_llm; k_docs := 3; show_debug := false;
     user_input := [N.of_nat n] |}.

(** The first [n] scripted questions, asked one after the other. *)
Definition scripted (n : nat) : list Action :=
  map (fun i => Ask (numbered_turn i)) (seq 1 n).

End Spec.

(** ** Further notions *)

Module Notions.

(** What is left to split after the line boundary [c]: a line feed that
    follows a carriage return belongs to the same boundary. *)
Definition after_break (c : N) (s : str) : str :=
  match s with
  | d :: s' => if N.eqb c 13 && N.eqb d 10 then s' else s
  | [] => s
  end.

(** No character of the string is a line boundary. *)
Definition one_line (s : str) : bool := forallb (fun c => negb (is_linebreak c)) s.

(** Only whitespace, or nothing at all. *)
Definition blank (s : str) : bool := forallb is_space s.

(** A character of the literal text of a format string: not a brace. *)
Definition plain_char (c : N) : bool :=
  negb (N.eqb c rag_utils.LBRACE) && negb (N.eqb c rag_utils.RBRACE).

(** A character of a plain field name. *)
Definition name_char (c : N) : bool :=
  negb (N.eqb c rag_utils.RBRACE) && negb (rag_utils.is_field_syntax c).

(** The text of a sequence of fragments. *)
Definition streamed_text (chunks : list chatbot.AIMessageChunk) : str :=
  concat (map chatbot.content_or_empty chunks).

(** The documents a turn retrieves: none when the index query raises. *)
Definition retrieved (t : chatbot.Turn) : list chatbot.Document :=
  match chatbot.similarity_search (chatbot.store t) (chatbot.user_input t)
                                  (chatbot.k_docs t) with
  | inr docs => docs
  | inl _ => []
  end.

End Notions.

(** ** Notions for the converter *)

Module PdfNotions.

Import pdf_to_txt.

Section Tools.

Variable Image : Type.
Variable grayscale : Image -> list (list Z).
Variable image_to_string : list (list Z) -> str -> Exception + str.
Variable Num : Type.
Variable zero : Num.
Variable half : Num -> Num.
Variable write_text : str -> str -> option Exception.

(** What converting one file adds to the files written: its output name
    and text when the text could be extracted and written, nothing
    otherwise. *)
Definition written_for (two_column_patterns noise_patterns : option (list str))
           (pdf_file : PdfFile Image Num) : list (str * str) :=
  match fst (extract_text_from_pdf grayscale image_to_string zero half
                                   (path pdf_file)
                                   (Some (or_empty two_column_patterns))
                                   (Some (or_empty noise_patterns))
                                   (pdf_open pdf_file)) with
  | inl _ => []
  | inr txt =>
      match write_text (out_name pdf_file) txt with
      | Some _ => []
      | None => [(out_name pdf_file, txt)]
      end
  end.

End Tools.

End PdfNotions.

(** ** Sample pages *)

Module PdfSamples.

Import pdf_to_txt.

(** Pages whose sizes are integers and whose images are not looked at. *)
Definition text_region (s : string) : Region unit :=
  {| extract_text := inr (Some (lit s));
     to_image := inl (Raise (lit "cannot render")) |}.

Definition guide_page : Page unit Z :=
  {| width := 612%Z;
     height := 792%Z;
     whole := text_region "Airport Zoo";
     within_bbox := fun '(x0, _, _, _) =>
                      if (x0 =? 0)%Z
                      then inr (text_region "Airport")
                      else inr (text_region "Zoo") |}.

Definition no_ocr (bw : list (list Z)) (config : str) : Exception + str :=
  inl (Raise (lit "tesseract is not installed")).

Definition guide_pdf : PdfFile unit Z :=
  {| path := lit "in/A-Z Guide.pdf"; pdf_open := inr [guide_page; guide_page] |}.

Definition guide_PDF : PdfFile unit Z :=
  {| path := lit "in/A-Z Guide.PDF"; pdf_open := inr [guide_page] |}.

(** A scanned page: no embedded text, an image of one row of four gray
    levels, and an OCR engine that reads one word whatever the image. *)
Definition scanned_page : Page unit Z :=
  {| width := 612%Z;
     height := 792%Z;
     whole := {| extract_text := inr None; to_image := inr tt |};
     within_bbox := fun _ => inl (Raise (lit "cannot crop")) |}.

Definition four_levels (image : unit) : list (list Z) := [[0; 149; 150; 255]%Z].

Definition one_word (bw : list (list Z)) (config : str) : Exception + str :=
  inr (lit "scanned").

Definition half_of (w : Z) : Z := (w / 2)%Z.

Definition always_writes (out_file txt : str) : option Exception := None.

End PdfSamples.

(** ** Lists *)

Section ListFacts.

Context {A B : Type}.

Lemma combine_fst_snd (l : list (A * B)) :
  combine (map fst l) (map snd l) = l.
Proof.
  induction l as [|[a b] l IH]; simpl; [reflexivity | now rewrite IH].
Qed.

Lemma combine_app_same (l1 l2 : list A) (r1 r2 : list B) :
  length l1 = length r1 ->
  combine (l1 ++ l2) (r1 ++ r2) = combine l1 r1 ++ combine l2 r2.
Proof.
  revert r1; induction l1 as [|a l1 IH]; intros [|b r1] Hlen;
    simpl in *; try discriminate; [reflexivity|].
  f_equal. apply IH. now injection Hlen.
Qed.

Lemma combine_const (l : list A) (b : B) :
  Forall (fun p => In (fst p) l /\ snd p = b) (combine l (map (fun _ => b) l)).
Proof.
  induction l as [|a l IH]; simpl; constructor.
  - simpl. auto.
  - eapply Forall_impl; [|exact IH]. simpl. intros p [Hin Hb]. auto.
Qed.

Lemma filter_swap (p q : A -> bool) (l : list A) :
  filter p (filter q l) = filter q (filter p l).
Proof.
  induction l as [|a l IH]; simpl; [reflexivity|].
  destruct (p a) eqn:Hp, (q a) eqn:Hq; simpl; rewrite ?Hp, ?Hq, IH; reflexivity.
Qed.

Lemma filter_skipn_le (p : A -> bool) (n : nat) (l : list A) :
  length (filter p (skipn n l)) <= length (filter p l).
Proof.
  revert l; induction n as [|n IH]; intros [|a l]; simpl; try lia.
  specialize (IH l). destruct (p a); simpl; lia.
Qed.

End ListFacts.

(** ** The corpus loader *)

Section Loader.

Import rag_utils Spec.

Variable split_text : Z -> Z -> str -> list str.
Variable parameter_error : Z -> Z -> Exception.

Lemma read_files_loaded (files : list DirEntry) :
  read_files files
  = (map fst (loaded_docs files), map snd (loaded_docs files), warnings files).
Proof.
  induction files as [|fp files IH]; simpl; [reflexivity|].
  rewrite IH. destruct (read_text fp); reflexivity.
Qed.

Lemma loaded_docs_origin (files : list DirEntry) (txt : str) (m : Meta) :
  In (txt, m) (loaded_docs files) ->
  exists fp raw,
    In fp files /\ read_text fp = inr raw /\ txt = clean raw /\ source m = name fp.
Proof.
  unfold loaded_docs. rewrite in_flat_map. intros (fp & Hfp & Hin).
  destruct (read_text fp) as [e|raw] eqn:Hread; simpl in Hin; [contradiction|].
  destruct Hin as [Heq|[]]. injection Heq as <- <-.
  exists fp, raw. auto.
Qed.

Lemma loaded_docs_readable (files : list DirEntry) :
  loaded_docs (filter readable files) = loaded_docs files.
Proof.
  induction files as [|fp files IH]; simpl; [reflexivity|].
  unfold readable at 1. destruct (read_text fp) eqn:Hread; simpl.
  - exact IH.
  - rewrite Hread, IH. reflexivity.
Qed.

Lemma warnings_origin (files : list DirEntry) (fp : DirEntry) (e : Exception) :
  In fp files -> read_text fp = inl e -> In (CouldNotRead (name fp) e) (warnings files).
Proof.
  intros Hin Hread. unfold warnings. rewrite in_flat_map.
  exists fp. split; [exact Hin|]. rewrite Hread. simpl. auto.
Qed.

Lemma chunk_texts_length (chunk_size overlap : Z) (docs : list (str * Meta)) :
  length (fst (chunk_texts split_text chunk_size overlap docs))
  = length (snd (chunk_texts split_text chunk_size overlap docs)).
Proof.
  induction docs as [|[txt meta] docs IH]; simpl; [reflexivity|].
  destruct (chunk_texts split_text chunk_size overlap docs) as [chunks metas].
  simpl in *. rewrite !length_app, length_map. lia.
Qed.

Lemma chunk_texts_origin (chunk_size overlap : Z) (docs : list (str * Meta)) :
  Forall (fun cm => exists txt,
              In (txt, snd cm) docs /\ In (fst cm) (split_text chunk_size overlap txt))
         (combine (fst (chunk_texts split_text chunk_size overlap docs))
                  (snd (chunk_texts split_text chunk_size overlap docs))).
Proof.
  induction docs as [|[txt meta] docs IH]; simpl; [constructor|].
  destruct (chunk_texts split_text chunk_size overlap docs) as [chunks metas].
  simpl in *. rewrite combine_app_same by now rewrite length_map.
  apply Forall_app. split.
  - eapply Forall_impl; [|apply combine_const].
    simpl. intros [c m] [Hc Hm]. simpl in *. subst m. exists txt. auto.
  - eapply Forall_impl; [|exact IH].
    simpl. intros [c m] (txt' & Hin & Hc). exists txt'. auto.
Qed.

Lemma loaded_docs_member (files : list DirEntry) (fp : DirEntry) (raw : str) :
  In fp files -> read_text fp = inr raw ->
  In (clean raw, {| source := name fp |}) (loaded_docs files).
Proof.
  intros Hin Hread. unfold loaded_docs. rewrite in_flat_map.
  exists fp. split; [exact Hin|]. rewrite Hread. now left.
Qed.

Lemma warnings_only (files : list DirEntry) (file : str) (e : Exception) :
  In (CouldNotRead file e) (warnings files) ->
  exists fp, In fp files /\ name fp = file /\ read_text fp = inl e.
Proof.
  unfold warnings. rewrite in_flat_map. intros (fp & Hfp & Hin).
  destruct (read_text fp) as [e'|raw] eqn:Hread; simpl in Hin; [|contradiction].
  destruct Hin as [Heq|[]]. injection Heq as <- <-. exists fp. auto.
Qed.

Lemma chunk_texts_member (chunk_size overlap : Z) (docs : list (str * Meta))
      (txt c : str) (m : Meta) :
  In (txt, m) docs -> In c (split_text chunk_size overlap txt) ->
  In (c, m) (combine (fst (chunk_texts split_text chunk_size overlap docs))
                     (snd (chunk_texts split_text chunk_size overlap docs))).
Proof.
  intros Hdoc Hc. induction docs as [|[txt' meta] docs IH]; [contradiction|].
  simpl. destruct (chunk_texts split_text chunk_size overlap docs) as [chunks metas].
  simpl in *. rewrite combine_app_same by now rewrite length_map.
  apply in_or_app. destruct Hdoc as [Heq|Hdoc].
  - left. injection Heq as -> ->. clear IH.
    induction (split_text chunk_size overlap txt) as [|c' cs IHcs]; [contradiction|].
    simpl. destruct Hc as [->|Hc]; [now left | right; now apply IHcs].
  - right. now apply IH.
Qed.

(** The loader in closed form.  The warnings are printed whatever the
    parameters; the chunks of the readable files and the summary line come
    out when the splitter accepts the parameters, and its error otherwise. *)
Lemma load_and_chunk_eq (folder : Folder) (chunk_size overlap : Z) :
  load_and_chunk split_text parameter_error folder chunk_size overlap
  = if valid_parameters chunk_size overlap
    then (inr (chunk_texts split_text chunk_size overlap (loaded_docs (glob_txt folder))),
          warnings (glob_txt folder)
          ++ [Loaded (len (loaded_docs (glob_txt folder)))
                     (len (fst (chunk_texts split_text chunk_size overlap
                                            (loaded_docs (glob_txt folder)))))])
    else (inl (parameter_error chunk_size overlap), warnings (glob_txt folder)).
Proof.
  unfold load_and_chunk. rewrite read_files_loaded, combine_fst_snd.
  destruct (valid_parameters chunk_size overlap); [|reflexivity].
  destruct (chunk_texts _ _ _ _) as [chunks metas]. simpl.
  unfold len. now rewrite length_map.
Qed.

Lemma glob_txt_In (folder : Folder) (fp : DirEntry) :
  In fp (glob_txt folder) <-> In fp folder /\ endswith (lit ".txt") (name fp) = true.
Proof. unfold glob_txt. apply filter_In. Qed.

(** C4, for the parameters that the splitter accepts.  For every folder
    and all chunking parameters with [chunk_size > 0] and
    [0 <= overlap <= chunk_size], [load_and_chunk] returns a list of chunks
    and a list of metadata records of the same length, and every chunk
    stands next to a record whose [source] is the name of a [.txt] file of
    the folder that was read, the chunk being one of the pieces of that
    file's cleaned text. *)
Theorem load_and_chunk_parallel (folder : Folder) (chunk_size overlap : Z) :
  valid_parameters chunk_size overlap = true ->
  exists chunks chunk_metas,
    fst (load_and_chunk split_text parameter_error folder chunk_size overlap)
    = inr (chunks, chunk_metas) /\
    length chunks = length chunk_metas /\
    Forall (fun cm =>
              exists fp raw,
                In fp folder /\ endswith (lit ".txt") (name fp) = true /\
                read_text fp = inr raw /\
                source (snd cm) = name fp /\
                In (fst cm) (split_text chunk_size overlap (clean raw)))
           (combine chunks chunk_metas).
Proof.
  intros Hvalid. rewrite load_and_chunk_eq, Hvalid. cbn [fst].
  pose proof (chunk_texts_length chunk_size overlap (loaded_docs (glob_txt folder)))
    as Hlen.
  pose proof (chunk_texts_origin chunk_size overlap (loaded_docs (glob_txt folder)))
    as Horigin.
  destruct (chunk_texts _ _ _ _) as [chunks metas]. cbn [fst snd] in *.
  exists chunks, metas. split; [reflexivity|]. split; [exact Hlen|].
  eapply Forall_impl; [|exact Horigin].
  intros [c m] (txt & Hin & Hc). simpl in *.
  apply loaded_docs_origin in Hin as (fp & raw & Hfp & Hread & -> & Hsrc).
  apply glob_txt_In in Hfp as [Hfolder Hext].
  exists fp, raw. auto.
Qed.

(** C8, for the reads that raise.  Opening a file or reading its bytes can
    raise; decoding cannot, since invalid bytes are dropped.  For every
    folder of files: every [.txt] file whose read raises has its warning
    printed, whatever the chunking parameters, and no other warning is
    printed; what is returned or raised is the same as if these files were
    not in the folder; and when the splitter accepts the parameters, the
    lists returned hold every piece of the text of every [.txt] file whose
    bytes could be read, valid UTF-8 or not, next to a record that names the
    file, and nothing else. *)
Theorem load_and_chunk_skips_unreadable (files : list File) (chunk_size overlap : Z) :
  let folder := map dir_entry files in
  let result := load_and_chunk split_text parameter_error folder chunk_size overlap in
  let text_of (b : bytes) := clean (universal_newlines (decode_utf8_ignore b)) in
  (forall f e,
      In f files -> endswith (lit ".txt") (file_name f) = true ->
      read_bytes f = inl e ->
      In (CouldNotRead (file_name f) e) (snd result)) /\
  (forall file e,
      In (CouldNotRead file e) (snd result) ->
      exists f, In f files /\ endswith (lit ".txt") (file_name f) = true /\
                file_name f = file /\ read_bytes f = inl e) /\
  fst result
  = fst (load_and_chunk split_text parameter_error (filter readable folder)
                        chunk_size overlap) /\
  if valid_parameters chunk_size overlap then
    exists chunks chunk_metas,
      fst result = inr (chunks, chunk_metas) /\
      (forall f b c,
          In f files -> endswith (lit ".txt") (file_name f) = true ->
          read_bytes f = inr b ->
          In c (split_text chunk_size overlap (text_of b)) ->
          In (c, {| source := file_name f |}) (combine chunks chunk_metas)) /\
      Forall (fun cm =>
                exists f b,
                  In f files /\ endswith (lit ".txt") (file_name f) = true /\
                  read_bytes f = inr b /\
                  source (snd cm) = file_name f /\
                  In (fst cm) (split_text chunk_size overlap (text_of b)))
             (combine chunks chunk_metas)
  else fst result = inl (parameter_error chunk_size overlap).
Proof.
  cbv zeta. rewrite !load_and_chunk_eq.
  assert (Hwarn : forall f e,
             In f files -> endswith (lit ".txt") (file_name f) = true ->
             read_bytes f = inl e ->
             In (CouldNotRead (file_name f) e) (warnings (glob_txt (map dir_entry files)))).
  { intros f e Hf Hext Hread.
    apply (warnings_origin (glob_txt (map dir_entry files)) (dir_entry f)).
    - apply glob_txt_In. split; [now apply in_map | exact Hext].
    - cbn [read_text dir_entry]. unfold path_read_text. now rewrite Hread. }
  assert (Honly : forall file e,
             In (CouldNotRead file e) (warnings (glob_txt (map dir_entry files))) ->
             exists f, In f files /\ endswith (lit ".txt") (file_name f) = true /\
                       file_name f = file /\ read_bytes f = inl e).
  { intros file e Hin.
    apply warnings_only in Hin as (fp & Hfp & Hname & Hread).
    apply glob_txt_In in Hfp as [Hfp Hext].
    apply in_map_iff in Hfp as (f & <- & Hf).
    cbn [name read_text dir_entry] in *. unfold path_read_text in Hread.
    destruct (read_bytes f) as [e'|b] eqn:Hbytes; [|discriminate].
    injection Hread as ->. exists f. auto. }
  assert (Hsame : loaded_docs (glob_txt (filter readable (map dir_entry files)))
                  = loaded_docs (glob_txt (map dir_entry files))).
  { unfold glob_txt. now rewrite filter_swap, loaded_docs_readable. }
  rewrite Hsame.
  destruct (valid_parameters chunk_size overlap); cbn [fst snd].
  - split; [|split; [|split; [reflexivity|]]].
    + intros f e Hf Hext Hread. apply in_or_app. left. now apply Hwarn.
    + intros file e Hin. apply in_app_or in Hin as [Hin|[Heq|[]]];
        [now apply Honly | discriminate].
    + pose proof (chunk_texts_origin chunk_size overlap
                                     (loaded_docs (glob_txt (map dir_entry files))))
        as Horigin.
      pose proof (fun txt c m =>
                    @chunk_texts_member chunk_size overlap
                                        (loaded_docs (glob_txt (map dir_entry files)))
                                        txt c m)
        as Hmember.
      destruct (chunk_texts _ _ _ _) as [chunks metas]. cbn [fst snd] in *.
      exists chunks, metas. split; [reflexivity|]. split.
      * intros f b c Hf Hext Hread Hc. eapply Hmember; [|exact Hc].
        apply (loaded_docs_member (glob_txt (map dir_entry files)) (dir_entry f)).
        -- apply glob_txt_In. split; [now apply in_map | exact Hext].
        -- cbn [read_text dir_entry]. unfold path_read_text. now rewrite Hread.
      * eapply Forall_impl; [|exact Horigin].
        intros [c m] (txt & Hin & Hc). cbn [fst snd] in *.
        apply loaded_docs_origin in Hin as (fp & raw & Hfp & Hread & -> & Hsrc).
        apply glob_txt_In in Hfp as [Hfp Hext].
        apply in_map_iff in Hfp as (f & <- & Hf).
        cbn [name read_text dir_entry] in *. unfold path_read_text in Hread.
        destruct (read_bytes f) as [e|b] eqn:Hbytes; [discriminate|].
        injection Hread as <-. exists f, b. auto.
  - split; [exact Hwarn|]. split; [exact Honly|]. split; reflexivity.
Qed.

End Loader.

(** ** The prompt composer *)

Section Composer.

Import rag_utils Spec.

Lemma contains_refl (s : str) : contains s s.
Proof. exists [], []. now rewrite app_nil_r. Qed.

Lemma contains_app_l (sub s extra : str) : contains sub s -> contains sub (s ++ extra).
Proof.
  intros (a & b & ->). exists a, (b ++ extra). now rewrite <- !app_assoc.
Qed.

Lemma contains_app_r (sub s extra : str) : contains sub s -> contains sub (extra ++ s).
Proof.
  intros (a & b & ->). exists (extra ++ a), b. now rewrite <- !app_assoc.
Qed.

Lemma join_contains (sep : str) (parts : list str) :
  Forall (fun p => contains p (join sep parts)) parts.
Proof.
  induction parts as [|p [|p' rest] IH].
  - constructor.
  - constructor; [apply contains_refl | constructor].
  - change (join sep (p :: p' :: rest)) with (p ++ sep ++ join sep (p' :: rest)).
    constructor.
    + apply contains_app_l, contains_refl.
    + eapply Forall_impl; [|exact IH]. intros q Hq.
      now apply contains_app_r, contains_app_r.
Qed.

(** Rendering the template never raises and puts the two arguments, as
    they are, between the fixed parts. *)
Lemma format_prompt_eq (context question : str) :
  format_prompt context question
  = Some (prompt_head ++ context ++ prompt_middle ++ question ++ prompt_tail).
Proof. vm_compute. reflexivity. Qed.

Lemma prompt_head_no_information : contains no_information prompt_head.
Proof.
  exists (firstn 260 prompt_head), (skipn 306 prompt_head).
  vm_compute. reflexivity.
Qed.

End Composer.

(** ** Slices that keep the end of a list *)

Section Slices.

Context {A : Type}.

(** [l[-n:]] for a positive [n] drops all but the last [n] elements. *)
Lemma slice_from_last (n : nat) (l : list A) :
  (0 < n)%nat -> slice_from (- Z.of_nat n) l = skipn (length l - n) l.
Proof.
  intros Hn. unfold slice_from, len.
  destruct (Z.ltb_spec (- Z.of_nat n) 0) as [_|H]; [|lia].
  f_equal. lia.
Qed.

(** Appending to the kept end and cutting again is cutting the whole. *)
Lemma skipn_last_app (n m : nat) (l r : list A) :
  (n <= m + length r)%nat ->
  skipn (length (skipn (length l - m) l ++ r) - n) (skipn (length l - m) l ++ r)
  = skipn (length (l ++ r) - n) (l ++ r).
Proof.
  intros Hn.
  assert (Hcut : skipn (length l - m) l ++ r = skipn (length l - m) (l ++ r)).
  { rewrite skipn_app. replace (length l - m - length l)%nat with 0%nat by lia.
    reflexivity. }
  rewrite Hcut, skipn_skipn. f_equal.
  rewrite length_skipn, !length_app. lia.
Qed.

Lemma skipn_last_snoc (n : nat) (l : list A) (x : A) :
  skipn (length l - n) l ++ [x] = skipn (length (l ++ [x]) - S n) (l ++ [x]).
Proof.
  rewrite skipn_app, length_app. change (length [x]) with 1%nat.
  replace (length l + 1 - S n)%nat with (length l - n)%nat by lia.
  replace (length l - n - length l)%nat with 0%nat by lia.
  reflexivity.
Qed.

Lemma skipn_last_nil (n : nat) (l : list A) :
  (0 < n)%nat -> skipn (length l - n) l = [] -> l = [].
Proof.
  intros Hn H. apply (f_equal (@length A)) in H.
  rewrite length_skipn in H. change (length (@nil A)) with 0%nat in H.
  destruct l; [reflexivity | cbn [length] in H; lia].
Qed.

End Slices.

(** ** The session *)

Section Session.

Import rag_utils chatbot Spec.

(** Trimming keeps the last twenty entries. *)
Lemma trim_history_last (h : list Message) :
  trim_history h = skipn (length h - 20) h.
Proof.
  unfold trim_history, MAX_HISTORY_TURNS, len.
  destruct (Z.gtb_spec (Z.of_nat (length h)) (10 * 2)) as [Hlong|Hshort].
  - apply (slice_from_last (n := 20)). lia.
  - replace (length h - 20)%nat with 0%nat by lia. reflexivity.
Qed.

Lemma trim_history_slice (h : list Message) :
  trim_history h = slice_from (-20) h.
Proof.
  rewrite trim_history_last. symmetry. apply (slice_from_last (n := 20)). lia.
Qed.

Lemma ask_last (q : str) (h : list Message) :
  ask q h = skipn (length (h ++ [HumanMessage q]) - 20) (h ++ [HumanMessage q]).
Proof. apply trim_history_last. Qed.

Lemma ask_length (q : str) (h : list Message) :
  length (ask q h) = Nat.min 20 (S (length h)).
Proof. rewrite ask_last, length_skipn, length_app. cbn [length]. lia. Qed.

(** The question and the reply are appended to the history and the
    oldest entries beyond twenty-one are dropped. *)
Lemma ask_reply_last (q r : str) (h : list Message) :
  ask q h ++ [AIMessage r]
  = skipn (length (h ++ [HumanMessage q; AIMessage r]) - 21)
          (h ++ [HumanMessage q; AIMessage r]).
Proof.
  rewrite ask_last, skipn_last_snoc, <- app_assoc. reflexivity.
Qed.

Lemma ask_reply_slice (q r : str) (h : list Message) :
  ask q h ++ [AIMessage r] = slice_from (-21) (h ++ [HumanMessage q; AIMessage r]).
Proof.
  rewrite ask_reply_last. symmetry. apply (slice_from_last (n := 21)). lia.
Qed.

(** Asking on the kept end of a log is asking on the whole log. *)
Lemma ask_on_last (q : str) (log : list Message) :
  ask q (skipn (length log - 21) log) = ask q log.
Proof.
  rewrite !ask_last. apply skipn_last_app. cbn [length]. lia.
Qed.

(** The question adds no assistant entry. *)
Lemma ask_assistant_entries (q : str) (h : list Message) :
  (assistant_entries (ask q h) <= assistant_entries h)%nat.
Proof.
  rewrite ask_last. unfold assistant_entries.
  set (l := h ++ [HumanMessage q]).
  assert (Hl : length (filter is_assistant l) = length (filter is_assistant h)).
  { unfold l. rewrite filter_app, length_app. simpl. lia. }
  rewrite <- Hl. apply filter_skipn_le.
Qed.

(** A turn always runs to its end; its reply is that of [reply]. *)
Lemma respond_eq (t : Turn) :
  respond t
  = let '(context, docs, shown_retrieval) :=
        retrieve (store t) (user_input t) (k_docs t) in
    let full_prompt :=
        prompt_head ++ context ++ prompt_middle ++ user_input t ++ prompt_tail in
    let shown_debug := if show_debug t then [DebugPrompt full_prompt] else [] in
    let '(collected_response, shown_stream) := stream_response (llm t) full_prompt in
    Some (docs,
          {| context := context;
             full_prompt := full_prompt;
             collected_response := collected_response |},
          shown_retrieval ++ shown_debug ++ shown_stream).
Proof.
  unfold respond. destruct (retrieve _ _ _) as [[context docs] shown_retrieval].
  rewrite format_prompt_eq. reflexivity.
Qed.

Lemma respond_total (t : Turn) :
  exists docs vars shown, respond t = Some (docs, vars, shown).
Proof.
  rewrite respond_eq. destruct (retrieve _ _ _) as [[context docs] shown_retrieval].
  cbv zeta. destruct (stream_response _ _) as [collected shown_stream].
  eauto.
Qed.

Lemma query_turn_eq (t : Turn) (st : SessionState) :
  exists docs vars shown,
    respond t = Some (docs, vars, shown) /\
    query_turn t st
    = Some ({| history := ask (user_input t) (history st)
                          ++ [AIMessage (collected_response vars)];
               last_docs := docs |},
            vars, UserBubble (user_input t) :: shown).
Proof.
  destruct (respond_total t) as (docs & vars & shown & Hr).
  exists docs, vars, shown. split; [exact Hr|].
  unfold query_turn. rewrite Hr. reflexivity.
Qed.

Lemma query_turn_total (t : Turn) (st : SessionState) :
  exists result, query_turn t st = Some result.
Proof.
  destruct (query_turn_eq t st) as (docs & vars & shown & _ & H). eauto.
Qed.

End Session.

(** ** Query turns *)

Section Turns.

Import rag_utils chatbot Spec.

(** The history is always the last twenty-one messages of the
    conversation. *)
Lemma run_keeps_last (actions : list Action) :
  forall (st : SessionState) (log : list Message),
    history st = skipn (length log - 21) log ->
    exists st' log',
      run actions st = Some st' /\
      conversation log actions = Some log' /\
      history st' = skipn (length log' - 21) log'.
Proof.
  induction actions as [|a rest IH]; intros st log Hinv.
  - exists st, log. simpl. auto.
  - destruct a as [i| |t]; simpl.
    + destruct (history st) as [|m h] eqn:Hh.
      * assert (log = []) as -> by (apply (skipn_last_nil (n := 21)); [lia | now symmetry]).
        destruct (nth_error suggestions i) as [suggestion_text|].
        -- apply IH. reflexivity.
        -- apply IH. simpl. exact Hh.
      * destruct log as [|m' log']; [discriminate Hinv|].
        apply IH. now rewrite Hh.
    + apply IH. reflexivity.
    + destruct (truthy (user_input t)); [|now apply IH].
      destruct (query_turn_eq t st) as (docs & vars & shown & Hr & Hq).
      rewrite Hq. unfold reply. rewrite Hr. simpl.
      apply IH. simpl. rewrite Hinv, ask_on_last. apply ask_reply_last.
Qed.

(** What a turn records when its generation call is known. *)
Lemma respond_generation (t : Turn) (chunks : list AIMessageChunk)
      (raised : option Exception) :
  generation t = Some (chunks, raised) ->
  exists docs vars shown,
    respond t = Some (docs, vars, shown) /\
    stream (llm t) [HumanMessage (full_prompt vars)] = (chunks, raised) /\
    stream_response (llm t) (full_prompt vars)
    = (collected_response vars, snd (stream_response (llm t) (full_prompt vars))) /\
    exists shown_before,
      shown = shown_before ++ snd (stream_response (llm t) (full_prompt vars)).
Proof.
  unfold generation, prompt_of. rewrite respond_eq.
  destruct (retrieve _ _ _) as [[context docs] shown_retrieval].
  rewrite format_prompt_eq. cbv zeta. simpl. intros Hgen. injection Hgen as Hgen.
  destruct (stream_response _ _) as [collected shown_stream] eqn:Hstream.
  do 3 eexists. split; [reflexivity|]. simpl. rewrite Hstream.
  split; [exact Hgen|]. split; [reflexivity|].
  exists (shown_retrieval
          ++ (if show_debug t
              then [DebugPrompt (prompt_head ++ context ++ prompt_middle
                                 ++ user_input t ++ prompt_tail)]
              else [])).
  now rewrite <- app_assoc.
Qed.

Lemma stream_response_raised (m : ChatModel) (p : str)
      (chunks : list AIMessageChunk) (e : Exception) :
  stream m [HumanMessage p] = (chunks, Some e) ->
  stream_response m p
  = (error_reply,
     snd (consume [] chunks)
     ++ [StError (lit " API Error: " ++ str_of_exn e);
         StInfo (lit " Check your API key or try a different model.");
         PlaceholderEmptied]).
Proof.
  intros H. unfold stream_response. rewrite H.
  destruct (consume [] chunks). reflexivity.
Qed.

(** C1, as amended.  In every session (any sequence of suggestion clicks,
    clears and query turns from the initial state) the script runs to its
    end, and the history is the last 21 messages of the conversation, in
    their order: at the end of a completed query turn it holds at most
    2 x 10 + 1 entries.  Once the next question is appended and the
    trimming step has run, the history is the last 20 messages of the
    conversation with that question, in their order, and its length is the
    smaller of 20 and the number of messages so far: at most 2 x 10, and
    exactly 20 when the question is the 25th message. *)
Theorem history_keeps_most_recent (actions : list Action) :
  exists st log,
    run actions initial_session = Some st /\
    conversation [] actions = Some log /\
    history st = slice_from (-21) log /\
    (len (history st) <= 2 * MAX_HISTORY_TURNS + 1)%Z /\
    forall q : str,
      ask q (history st) = slice_from (-20) (log ++ [HumanMessage q]) /\
      len (ask q (history st)) = Z.min (2 * MAX_HISTORY_TURNS) (len log + 1) /\
      (len (ask q (history st)) <= 2 * MAX_HISTORY_TURNS)%Z.
Proof.
  destruct (run_keeps_last actions initial_session [] eq_refl)
    as (st & log & Hrun & Hlog & Hinv).
  exists st, log. split; [exact Hrun|]. split; [exact Hlog|].
  split; [|split].
  - rewrite Hinv. symmetry. apply (slice_from_last (n := 21)). lia.
  - unfold len, MAX_HISTORY_TURNS. rewrite Hinv, length_skipn. lia.
  - intros q.
    assert (Hlen : len (ask q (history st))
                   = Z.min (2 * MAX_HISTORY_TURNS) (len log + 1)).
    { unfold len, MAX_HISTORY_TURNS. rewrite Hinv, ask_on_last, ask_length. lia. }
    split; [|split; [exact Hlen | lia]].
    rewrite Hinv, ask_on_last. apply trim_history_slice.
Qed.

(** C3. When the generation call of a turn raises, the turn still ends:
    the history becomes the trimmed history with the question, followed by
    one assistant entry holding the error reply, that is, the last 21 of
    the old history with the question and the error reply appended; the
    number of assistant entries is one more than after the trimming step,
    and any next turn runs to its end. *)
Theorem failed_generation_one_entry (t : Turn) (st : SessionState)
        (chunks : list AIMessageChunk) (e : Exception) :
  generation t = Some (chunks, Some e) ->
  exists st' vars shown,
    query_turn t st = Some (st', vars, shown) /\
    history st' = ask (user_input t) (history st) ++ [AIMessage error_reply] /\
    history st'
    = slice_from (-21)
        (history st ++ [HumanMessage (user_input t); AIMessage error_reply]) /\
    assistant_entries (history st')
    = S (assistant_entries (ask (user_input t) (history st))) /\
    (assistant_entries (history st') <= S (assistant_entries (history st)))%nat /\
    forall t' : Turn, exists result, query_turn t' st' = Some result.
Proof.
  intros Hgen.
  destruct (respond_generation t Hgen) as (docs & vars & shown & Hr & Hs & Hc & _).
  rewrite (stream_response_raised _ _ Hs) in Hc.
  apply (f_equal fst) in Hc. simpl in Hc.
  unfold query_turn at 1. rewrite Hr, <- Hc. do 3 eexists. split; [reflexivity|].
  simpl. split; [reflexivity|]. split; [apply ask_reply_slice|].
  assert (Hcount : assistant_entries (ask (user_input t) (history st)
                                      ++ [AIMessage error_reply])
                   = S (assistant_entries (ask (user_input t) (history st)))).
  { unfold assistant_entries. rewrite filter_app, length_app. simpl. lia. }
  split; [exact Hcount|]. split.
  - rewrite Hcount. apply le_n_S, ask_assistant_entries.
  - intros t'. apply query_turn_total.
Qed.

(** C6. When the index query of a turn raises, the turn goes on: the
    context given to the template is the empty string, [last_docs] becomes
    the empty list, the error is shown, the prompt built from the empty
    context is sent to the chat model and its reply recorded, and any next
    turn runs to its end. *)
Theorem failed_retrieval_continues (t : Turn) (st : SessionState) (e : Exception) :
  similarity_search (store t) (user_input t) (k_docs t) = inl e ->
  exists st' vars shown,
    query_turn t st = Some (st', vars, shown) /\
    context vars = [] /\
    format_prompt [] (user_input t) = Some (full_prompt vars) /\
    collected_response vars = fst (stream_response (llm t) (full_prompt vars)) /\
    last_docs st' = [] /\
    In (StError (lit " Retrieval error: " ++ str_of_exn e)) shown /\
    history st'
    = ask (user_input t) (history st) ++ [AIMessage (collected_response vars)] /\
    forall t' : Turn, exists result, query_turn t' st' = Some result.
Proof.
  intros Hsearch. unfold query_turn at 1. rewrite respond_eq.
  unfold retrieve. rewrite Hsearch. cbv zeta.
  destruct (stream_response _ _) as [collected shown_stream] eqn:Hstream.
  do 3 eexists. split; [reflexivity|].
  cbn [context full_prompt collected_response history last_docs].
  split; [reflexivity|]. split; [apply format_prompt_eq|].
  split; [now rewrite Hstream|]. split; [reflexivity|].
  split; [right; left; reflexivity|]. split; [reflexivity|].
  intros t'. apply query_turn_total.
Qed.

(** C10. When the generation call of a turn raises after fragments were
    received, the text collected from them was drawn while streaming but is
    dropped: [collected_response] is the error reply, the placeholder is
    emptied, and the entry appended to the history is the assistant
    message holding exactly the error reply. *)
Theorem partial_answer_discarded (t : Turn) (st : SessionState)
        (chunk : AIMessageChunk) (chunks : list AIMessageChunk) (e : Exception) :
  generation t = Some (chunk :: chunks, Some e) ->
  exists st' vars shown,
    query_turn t st = Some (st', vars, shown) /\
    In (Streaming (content_or_empty chunk)) shown /\
    In PlaceholderEmptied shown /\
    collected_response vars = error_reply /\
    history st' = ask (user_input t) (history st) ++ [AIMessage error_reply] /\
    last (history st') (HumanMessage []) = AIMessage error_reply /\
    error_reply
    = lit "I encountered an error. Please check your API key or try again.".
Proof.
  intros Hgen.
  destruct (respond_generation t Hgen)
    as (docs & vars & shown & Hr & Hs & Hc & shown_before & Hshown).
  rewrite (stream_response_raised _ _ Hs) in Hc, Hshown.
  apply (f_equal fst) in Hc. simpl in Hc.
  unfold query_turn at 1. rewrite Hr, <- Hc. do 3 eexists. split; [reflexivity|].
  simpl. split; [|split].
  - right. rewrite Hshown. apply in_or_app. right.
    destruct (consume (content_or_empty chunk) chunks) eqn:Hrest.
    simpl. rewrite Hrest. simpl. left. reflexivity.
  - right. rewrite Hshown. apply in_or_app. right. apply in_or_app. right.
    simpl. auto.
  - split; [now symmetry|]. split; [reflexivity|].
    split; [apply last_last | reflexivity].
Qed.

(** C7. Composing the prompt of a turn cannot fail, whatever the question
    and whatever the documents retrieved, none included: the turn runs to
    its end; its context is the texts of the retrieved chunks, in the order
    returned, with a blank line between them (so every chunk text occurs
    in it, and it is empty when there is none: [join] of no text is the
    empty string); rendering the template on
    that context and the question returns the prompt, which is the
    template's fixed text around the two, so that it contains the question
    as it was typed and the sentence that admits ignorance. *)
Theorem prompt_composition_total (t : Turn) :
  let texts := map page_content (Notions.retrieved t) in
  exists docs vars shown,
    respond t = Some (docs, vars, shown) /\
    context vars = join (NL ++ NL) texts /\
    format_prompt (context vars) (user_input t) = Some (full_prompt vars) /\
    full_prompt vars
    = prompt_head ++ context vars ++ prompt_middle ++ user_input t ++ prompt_tail /\
    Forall (fun c => contains c (context vars)) texts /\
    contains (context vars) (full_prompt vars) /\
    contains (user_input t) (full_prompt vars) /\
    contains no_information (full_prompt vars).
Proof.
  cbv zeta. rewrite respond_eq. unfold retrieve, Notions.retrieved.
  destruct (similarity_search (store t) (user_input t) (k_docs t)) as [e|found];
    cbv zeta; destruct (stream_response _ _) as [collected shown_stream];
    do 3 eexists; (split; [reflexivity|]);
    cbn [chatbot.context chatbot.full_prompt];
    (split; [reflexivity|]); (split; [apply format_prompt_eq|]);
    (split; [reflexivity|]);
    (split; [first [apply (join_contains (NL ++ NL)) | constructor]|]);
    (split; [apply contains_app_r, contains_app_l, contains_refl|]);
    (split; [do 3 apply contains_app_r; apply contains_app_l, contains_refl|]);
    apply contains_app_l, prompt_head_no_information.
Qed.

End Turns.

(** ** The statements on sample sessions *)

Section Samples.

Import rag_utils chatbot Spec.

(** The trimming scenario: after twelve completed turns the thirteenth
    question is the 25th message; once it is appended and the history
    trimmed, the history is the conversation without its first five
    messages. *)
Example trimming_scenario :
  exists st log,
    run (scripted 12) initial_session = Some st /\
    conversation [] (scripted 12) = Some log /\
    length (log ++ [HumanMessage [13%N]]) = 25%nat /\
    ask [13%N] (history st) = skipn 5 (log ++ [HumanMessage [13%N]]) /\
    length (ask [13%N] (history st)) = 20%nat.
Proof.
  do 2 eexists. split; [vm_compute; reflexivity|].
  split; [vm_compute; reflexivity|].
  split; [reflexivity|]. split; vm_compute; reflexivity.
Qed.

(** C1, as first stated, fails at the end of the eleventh completed turn:
    the reply is appended after the trimming step, and the history then
    holds 21 entries, more than 2 x 10. *)
Lemma history_exceeds_bound_after_reply :
  exists st,
    run (scripted 11) initial_session = Some st /\
    len (history st) = 21%Z /\
    ~ (len (history st) <= 2 * MAX_HISTORY_TURNS)%Z.
Proof.
  eexists. split; [vm_compute; reflexivity|].
  split; [vm_compute; reflexivity|].
  vm_compute. intros H. apply H. reflexivity.
Qed.

(** C4, as first stated, fails for an overlap larger than the chunk size:
    the constructor of the splitter raises once the warnings are printed,
    and no list is returned. *)
Lemma load_and_chunk_raises_on_large_overlap :
  valid_parameters 50 100 = false /\
  load_and_chunk in_halves rejected [locked; halifax] 50 100
  = (inl (rejected 50 100),
     [CouldNotRead (lit "locked.txt") (Raise (lit "Permission denied"))]) /\
  ~ exists chunks chunk_metas,
      fst (load_and_chunk in_halves rejected [locked; halifax] 50 100)
      = inr (chunks, chunk_metas).
Proof.
  split; [reflexivity|]. split; [vm_compute; reflexivity|].
  intros (chunks & chunk_metas & H). vm_compute in H. discriminate.
Qed.

Lemma load_and_chunk_parallel_witness :
  valid_parameters 500 50 = true /\
  exists chunks chunk_metas,
    fst (load_and_chunk in_halves rejected [locked; halifax] 500 50)
    = inr (chunks, chunk_metas) /\
    length chunks = length chunk_metas /\
    Forall (fun cm => source (snd cm) = lit "halifax.txt") (combine chunks chunk_metas).
Proof.
  split; [reflexivity|].
  destruct (@load_and_chunk_parallel in_halves rejected [locked; halifax] 500 50 eq_refl)
    as (chunks & chunk_metas & Hload & Hlen & Horigin).
  exists chunks, chunk_metas. split; [exact Hload|]. split; [exact Hlen|].
  eapply Forall_impl; [|exact Horigin].
  intros cm (fp & raw & Hfp & _ & Hread & Hsrc & _). rewrite Hsrc.
  destruct Hfp as [<-|[<-|[]]]; [discriminate | reflexivity].
Defined.

(** C8, as first stated, fails for a decoding failure: a file whose bytes
    are not valid UTF-8 is not skipped.  Its invalid bytes are dropped, its
    text is loaded and no warning is printed. *)
Lemma undecodable_file_is_loaded :
  exists b,
    read_bytes garbled_file = inr b /\
    decode_utf8_strict b = None /\
    load_and_chunk in_halves rejected [dir_entry garbled_file] 500 50
    = (inr ([lit "Spa "; lit "open"],
            [{| source := lit "garbled.txt" |}; {| source := lit "garbled.txt" |}]),
       [Loaded 1 2]).
Proof.
  eexists. split; [reflexivity|]. split; vm_compute; reflexivity.
Qed.

Lemma load_and_chunk_skips_unreadable_witness :
  let result := load_and_chunk in_halves rejected
                               (map dir_entry [locked_file; garbled_file; cafe_file])
                               500 50 in
  In (CouldNotRead (lit "locked.txt") (Raise (lit "Permission denied"))) (snd result) /\
  exists chunks chunk_metas,
    fst result = inr (chunks, chunk_metas) /\
    In (lit "Spa ", {| source := lit "garbled.txt" |}) (combine chunks chunk_metas) /\
    In (lit "Caf" ++ [233%N] ++ lit " ou", {| source := lit "cafe.txt" |})
       (combine chunks chunk_metas).
Proof.
  destruct (load_and_chunk_skips_unreadable in_halves rejected
                                            [locked_file; garbled_file; cafe_file]
                                            500 50)
    as (Hwarned & _ & _ & Hloaded).
  change (valid_parameters 500 50) with true in Hloaded. cbv iota in Hloaded.
  destruct Hloaded as (chunks & chunk_metas & Hresult & Hchunks & _).
  split.
  - apply (Hwarned locked_file); [now left | reflexivity | reflexivity].
  - exists chunks, chunk_metas. split; [exact Hresult|]. split.
    + eapply (Hchunks garbled_file);
        [right; now left | reflexivity | reflexivity | now left].
    + eapply (Hchunks cafe_file);
        [right; right; now left | reflexivity | reflexivity | now left].
Defined.

Lemma failed_generation_one_entry_witness :
  generation (kayak_turn one_doc_store failing_llm)
  = Some ([fragment "Kayak tours "; {| content := None |}],
          Some (Raise (lit "rate limit exceeded"))) /\
  exists st',
    option_map (fun r => fst (fst r))
               (query_turn (kayak_turn one_doc_store failing_llm) initial_session)
    = Some st' /\
    history st'
    = [HumanMessage (lit "Tell me about the kayak tour."); AIMessage error_reply] /\
    assistant_entries (history st') = 1%nat.
Proof.
  assert (Hgen : generation (kayak_turn one_doc_store failing_llm)
                 = Some ([fragment "Kayak tours "; {| content := None |}],
                         Some (Raise (lit "rate limit exceeded"))))
    by (vm_compute; reflexivity).
  split; [exact Hgen|].
  destruct (failed_generation_one_entry (kayak_turn one_doc_store failing_llm)
                                        initial_session Hgen)
    as (st' & vars & shown & Hturn & Hhistory & _ & Hcount & _).
  exists st'. rewrite Hturn. split; [reflexivity|].
  split; [exact Hhistory|]. rewrite Hcount. reflexivity.
Defined.

Lemma failed_retrieval_continues_witness :
  similarity_search broken_store (lit "Tell me about the kayak tour.") 3
  = inl (Raise (lit "index unavailable")) /\
  exists st' vars,
    option_map fst (query_turn (kayak_turn broken_store polite_llm) initial_session)
    = Some (st', vars) /\
    context vars = [] /\
    last_docs st' = [] /\
    length (history st') = 2%nat.
Proof.
  split; [reflexivity|].
  destruct (failed_retrieval_continues (kayak_turn broken_store polite_llm)
                                       initial_session
                                       (e := Raise (lit "index unavailable")) eq_refl)
    as (st' & vars & shown & Hturn & Hcontext & _ & _ & Hdocs & _ & Hhistory & _).
  exists st', vars. rewrite Hturn. split; [reflexivity|].
  split; [exact Hcontext|]. split; [exact Hdocs|].
  rewrite Hhistory. reflexivity.
Defined.

Lemma partial_answer_discarded_witness :
  generation (kayak_turn one_doc_store failing_llm)
  = Some (fragment "Kayak tours " :: [{| content := None |}],
          Some (Raise (lit "rate limit exceeded"))) /\
  exists st' vars shown,
    query_turn (kayak_turn one_doc_store failing_llm) initial_session
    = Some (st', vars, shown) /\
    In (Streaming (lit "Kayak tours ")) shown /\
    collected_response vars = error_reply /\
    map message_content (history st')
    = [lit "Tell me about the kayak tour.";
       lit "I encountered an error. Please check your API key or try again."].
Proof.
  assert (Hgen : generation (kayak_turn one_doc_store failing_llm)
                 = Some (fragment "Kayak tours " :: [{| content := None |}],
                         Some (Raise (lit "rate limit exceeded"))))
    by (vm_compute; reflexivity).
  split; [exact Hgen|].
  destruct (partial_answer_discarded (kayak_turn one_doc_store failing_llm)
                                     initial_session Hgen)
    as (st' & vars & shown & Hturn & Hdrawn & _ & Hvars & Hhistory & _).
  exists st', vars, shown. split; [exact Hturn|]. split; [exact Hdrawn|].
  split; [exact Hvars|]. rewrite Hhistory. reflexivity.
Defined.

End Samples.

(** ** The functions on small inputs *)

Section Checks.

Import rag_utils chatbot Spec.

Example splitlines_sample :
  splitlines (lit "a" ++ [13; 10]%N ++ lit "b" ++ NL ++ NL ++ lit "c" ++ NL)
  = [lit "a"; lit "b"; []; lit "c"].
Proof. reflexivity. Qed.

Example clean_sample :
  clean (lit "  Halifax offers " ++ NL ++ lit "   " ++ NL ++ NL ++ lit "kayak tours" ++ NL)
  = lit "Halifax offers" ++ NL ++ lit "kayak tours".
Proof. reflexivity. Qed.

Example slice_from_samples :
  slice_from (-2) [1; 2; 3] = [2; 3] /\
  slice_from (-5) [1; 2; 3] = [1; 2; 3] /\
  slice_from 1 [1; 2; 3] = [2; 3] /\
  slice_from 7 [1; 2; 3] = [].
Proof. repeat split. Qed.

Example glob_txt_sample :
  map name (glob_txt [halifax;
                      {| name := lit "notes.md"; read_text := inr [] |};
                      locked;
                      {| name := lit "txt"; read_text := inr [] |}])
  = [lit "halifax.txt"; lit "locked.txt"].
Proof. reflexivity. Qed.

Example vformat_samples :
  vformat [(lit "who", lit "{you}")] InText (lit "Hi {who}, {{ok}}")
  = Some (lit "Hi {you}, {ok}") /\
  vformat [] InText (lit "Hi {who}") = None /\
  vformat [(lit "who", lit "you")] InText (lit "Hi {who") = None /\
  vformat [(lit "who", lit "you")] InText (lit "Hi } {who}") = None.
Proof. repeat split. Qed.

(** One readable and one unreadable file, with a splitter that cuts a text
    in two halves. *)
Example load_and_chunk_sample :
  load_and_chunk in_halves rejected [locked; halifax] 500 50
  = (inr ([lit "Halifax offers kayak tours and spa trea";
           lit "tments. WiFi is available in the lobby."],
          [{| source := lit "halifax.txt" |}; {| source := lit "halifax.txt" |}]),
     [CouldNotRead (lit "locked.txt") (Raise (lit "Permission denied"));
      Loaded 1 2]).
Proof. vm_compute. reflexivity. Qed.

(** Reading text from bytes: invalid bytes are dropped, a character broken
    off by the end of the data too, and line ends are translated. *)
Example path_read_text_samples :
  path_read_text cafe_file = inr (lit "Caf" ++ [233%N] ++ lit " ouvert" ++ NL ++ lit "Spa") /\
  path_read_text garbled_file = inr (lit "Spa open") /\
  decode_utf8_ignore (lit "a" ++ [0xE2; 0x82]%N) = lit "a" /\
  decode_utf8_ignore ([0xE2; 0x82; 0xAC; 0xED; 0xA0; 0x80]%N ++ lit "b") = [8364%N] ++ lit "b" /\
  decode_utf8_strict [0xF0; 0x9F; 0x98; 0x80]%N = Some [128512%N] /\
  decode_utf8_strict [0xC0; 0x80]%N = None /\
  universal_newlines (lit "a" ++ [13; 13; 10; 10]%N) = lit "a" ++ [10; 10; 10]%N.
Proof. repeat split. Qed.

(** A turn whose retrieval and generation both succeed. *)
Example query_turn_sample :
  exists vars shown,
    query_turn (kayak_turn one_doc_store polite_llm) initial_session
    = Some ({| history := [HumanMessage (lit "Tell me about the kayak tour.");
                           AIMessage (lit "Kayak tours are offered.")];
               last_docs := [halifax_doc] |}, vars, shown) /\
    context vars = lit "Halifax offers kayak tours and spa treatments." /\
    shown = [UserBubble (lit "Tell me about the kayak tour.");
             Streaming (lit "Kayak tours ");
             Streaming (lit "Kayak tours are offered.");
             FinalAnswer (lit "Kayak tours are offered.")].
Proof. do 2 eexists. split; [vm_compute; reflexivity|]. split; reflexivity. Qed.

End Checks.

(** ** Stripping and splitting into lines *)

Section Strings.

Import Notions.

Lemma forallb_rev (P : N -> bool) (s : str) : forallb P (rev s) = forallb P s.
Proof.
  induction s as [|c s IH]; [reflexivity|].
  simpl. rewrite forallb_app, IH. simpl. rewrite andb_true_r. apply andb_comm.
Qed.

Lemma lstrip_head (s : str) :
  lstrip s = [] \/ exists c t, lstrip s = c :: t /\ is_space c = false.
Proof.
  induction s as [|c s IH]; [now left|].
  simpl. destruct (is_space c) eqn:Hc; [exact IH|].
  right. exists c, s. auto.
Qed.

Lemma lstrip_nil (s : str) : lstrip s = [] <-> blank s = true.
Proof.
  unfold blank. induction s as [|c s IH]; simpl; [tauto|].
  destruct (is_space c); simpl; [exact IH|].
  split; discriminate.
Qed.

Lemma lstrip_snoc (s : str) (c : N) :
  is_space c = false -> lstrip (s ++ [c]) = lstrip s ++ [c].
Proof.
  intros Hc. induction s as [|d s IH]; simpl.
  - now rewrite Hc.
  - destruct (is_space d); [exact IH | reflexivity].
Qed.

Lemma forallb_lstrip (P : N -> bool) (s : str) :
  forallb P s = true -> forallb P (lstrip s) = true.
Proof.
  induction s as [|c s IH]; [auto|].
  simpl. intros H. apply andb_prop in H as [Hc Hs].
  destruct (is_space c); [auto|]. simpl. now rewrite Hc, Hs.
Qed.

Lemma forallb_strip (P : N -> bool) (s : str) :
  forallb P s = true -> forallb P (strip s) = true.
Proof.
  intros H. unfold strip, rstrip.
  rewrite forallb_rev. apply forallb_lstrip.
  rewrite forallb_rev. now apply forallb_lstrip.
Qed.

(** A stripped text is empty or has a character that is not whitespace at
    both ends. *)
Lemma strip_ends (s : str) :
  lstrip (strip s) = strip s /\ lstrip (rev (strip s)) = rev (strip s).
Proof.
  unfold strip, rstrip. rewrite rev_involutive.
  destruct (lstrip_head s) as [Hnil|(c & t & Hs & Hc)].
  - rewrite Hnil. simpl. auto.
  - rewrite Hs. simpl rev. rewrite (lstrip_snoc (rev t) c Hc).
    rewrite rev_app_distr. simpl. rewrite Hc. split; [reflexivity|].
    rewrite <- (lstrip_snoc (rev t) c Hc).
    destruct (lstrip_head (rev t ++ [c])) as [Hnil|(d & u & Hu & Hd)].
    + now rewrite Hnil.
    + rewrite Hu. simpl. now rewrite Hd.
Qed.

Lemma strip_strip (s : str) : strip (strip s) = strip s.
Proof.
  destruct (strip_ends s) as [Hl Hr].
  unfold strip at 1, rstrip. rewrite Hl, Hr. apply rev_involutive.
Qed.

Lemma strip_nil (s : str) : strip s = [] <-> blank s = true.
Proof.
  split.
  - intros H. apply lstrip_nil.
    unfold strip, rstrip in H.
    apply (f_equal (@rev N)) in H. rewrite rev_involutive in H. simpl in H.
    apply lstrip_nil in H. unfold blank in H. rewrite forallb_rev in H.
    destruct (lstrip_head s) as [Hnil|(c & t & Hs & Hc)]; [exact Hnil|].
    rewrite Hs in H. simpl in H. rewrite Hc in H. discriminate.
  - intros H. apply lstrip_nil in H. unfold strip. now rewrite H.
Qed.

Lemma truthy_strip (s : str) : truthy (strip s) = negb (blank s).
Proof.
  destruct (blank s) eqn:Hb.
  - apply strip_nil in Hb. now rewrite Hb.
  - destruct (strip s) eqn:Hs; [|reflexivity].
    apply strip_nil in Hs. congruence.
Qed.

(** How [splitlines_from] goes on after one character. *)
Lemma splitlines_from_cons (cur : str) (c : N) (s : str) :
  splitlines_from cur (c :: s)
  = if is_linebreak c
    then rev cur :: splitlines_from [] (after_break c s)
    else splitlines_from (c :: cur) s.
Proof.
  simpl. destruct (is_linebreak c); [|reflexivity].
  destruct s as [|d s]; [reflexivity|].
  simpl. destruct (N.eqb c 13 && N.eqb d 10); reflexivity.
Qed.

Lemma after_break_length (c : N) (s : str) : length (after_break c s) <= length s.
Proof.
  destruct s as [|d s]; simpl; [lia|].
  destruct (N.eqb c 13 && N.eqb d 10); simpl; lia.
Qed.

(** Induction along the characters that [splitlines_from] reads. *)
Lemma splitlines_ind (P : str -> str -> Prop) :
  (forall cur, P cur []) ->
  (forall cur c s, is_linebreak c = false -> P (c :: cur) s -> P cur (c :: s)) ->
  (forall cur c s, is_linebreak c = true -> P [] (after_break c s) -> P cur (c :: s)) ->
  forall s cur, P cur s.
Proof.
  intros Hnil Hchar Hbreak s.
  assert (H : forall n s, length s <= n -> forall cur, P cur s).
  { induction n as [|n IH]; intros [|c t] Hlen cur; simpl in Hlen;
      try apply Hnil; [lia|].
    destruct (is_linebreak c) eqn:Hc.
    - apply Hbreak; [exact Hc|]. apply IH.
      pose proof (after_break_length c t). lia.
    - apply Hchar; [exact Hc|]. apply IH. lia. }
  intros cur. now apply (H (length s)).
Qed.

(** Every line is free of line boundaries. *)
Lemma splitlines_one_line (s cur : str) :
  one_line cur = true ->
  Forall (fun ln => one_line ln = true) (splitlines_from cur s).
Proof.
  revert s cur. apply (splitlines_ind (fun cur s =>
    one_line cur = true ->
    Forall (fun ln => one_line ln = true) (splitlines_from cur s))).
  - intros [|c cur] H; cbn [splitlines_from]; constructor; [|constructor].
    unfold one_line in *. now rewrite forallb_rev.
  - intros cur c s Hc IH H. rewrite splitlines_from_cons, Hc. apply IH.
    unfold one_line in *. simpl. now rewrite Hc, H.
  - intros cur c s Hc IH H. rewrite splitlines_from_cons, Hc.
    constructor; [|now apply IH].
    unfold one_line in *. now rewrite forallb_rev.
Qed.

(** The characters of the lines are characters of the text. *)
Lemma splitlines_forallb (P : N -> bool) (s cur : str) :
  forallb P cur = true -> forallb P s = true ->
  Forall (fun ln => forallb P ln = true) (splitlines_from cur s).
Proof.
  revert s cur. apply (splitlines_ind (fun cur s =>
    forallb P cur = true -> forallb P s = true ->
    Forall (fun ln => forallb P ln = true) (splitlines_from cur s))).
  - intros [|c cur] H _; cbn [splitlines_from]; constructor; [|constructor].
    now rewrite forallb_rev.
  - intros cur c s Hc IH H Hs. rewrite splitlines_from_cons, Hc.
    simpl in Hs. apply andb_prop in Hs as [HPc Hs].
    apply IH; [|exact Hs]. simpl. now rewrite HPc, H.
  - intros cur c s Hc IH H Hs. rewrite splitlines_from_cons, Hc.
    simpl in Hs. apply andb_prop in Hs as [HPc Hs].
    constructor; [now rewrite forallb_rev|]. apply IH; [reflexivity|].
    destruct s as [|d s]; [exact Hs|]. simpl.
    destruct (N.eqb c 13 && N.eqb d 10); [|exact Hs].
    simpl in Hs. now apply andb_prop in Hs as [_ Hs].
Qed.

(** Every character of the text is a line boundary or stands in a line. *)
Lemma splitlines_cover (P : N -> bool) (s cur : str) :
  (forall c, is_linebreak c = true -> P c = true) ->
  Forall (fun ln => forallb P ln = true) (splitlines_from cur s) ->
  forallb P cur = true /\ forallb P s = true.
Proof.
  intros Hbreaks. revert s cur. apply (splitlines_ind (fun cur s =>
    Forall (fun ln => forallb P ln = true) (splitlines_from cur s) ->
    forallb P cur = true /\ forallb P s = true)).
  - intros [|c cur] H; [auto|]. cbn [splitlines_from] in H.
    apply Forall_inv in H. rewrite forallb_rev in H. auto.
  - intros cur c s Hc IH H. rewrite splitlines_from_cons, Hc in H.
    destruct (IH H) as [Hcur Hs]. simpl in Hcur.
    apply andb_prop in Hcur as [HPc Hcur]. simpl. now rewrite HPc, Hs.
  - intros cur c s Hc IH H. rewrite splitlines_from_cons, Hc in H.
    pose proof (Forall_inv H) as Hcur. cbv beta in Hcur.
    rewrite forallb_rev in Hcur.
    apply Forall_inv_tail in H. destruct (IH H) as [_ Hrest].
    split; [exact Hcur|]. simpl. rewrite (Hbreaks c Hc). simpl.
    destruct s as [|d s]; [reflexivity|]. simpl in Hrest.
    destruct (N.eqb c 13 && N.eqb d 10) eqn:Hcrlf; [|exact Hrest].
    apply andb_prop in Hcrlf as [_ Hd]. apply N.eqb_eq in Hd. subst d.
    simpl. now rewrite (Hbreaks 10%N eq_refl).
Qed.

(** A run without line boundaries is added to the current line. *)
Lemma splitlines_from_one_line (p cur rest : str) :
  one_line p = true ->
  splitlines_from cur (p ++ rest) = splitlines_from (rev p ++ cur) rest.
Proof.
  revert cur. induction p as [|c p IH]; intros cur H; [reflexivity|].
  unfold one_line in H. simpl in H. apply andb_prop in H as [Hc Hp].
  apply negb_true_iff in Hc.
  change ((c :: p) ++ rest) with (c :: (p ++ rest)).
  rewrite splitlines_from_cons, Hc, (IH _ Hp). simpl.
  now rewrite <- app_assoc.
Qed.

(** Joining lines with a line feed and splitting again gives the lines
    back, when none is empty or holds a line boundary. *)
Lemma splitlines_join (lines : list str) :
  Forall (fun ln => ln <> [] /\ one_line ln = true) lines ->
  splitlines (join NL lines) = lines.
Proof.
  unfold splitlines. induction lines as [|p [|p' rest] IH]; intros H.
  - reflexivity.
  - apply Forall_inv in H as [Hne Hp]. simpl join.
    pose proof (splitlines_from_one_line p [] [] Hp) as Hrun.
    rewrite !app_nil_r in Hrun. rewrite Hrun. cbn [splitlines_from].
    destruct (rev p) eqn:Hrev.
    + apply (f_equal (@rev N)) in Hrev. rewrite rev_involutive in Hrev.
      simpl in Hrev. contradiction.
    + rewrite <- Hrev, rev_involutive. reflexivity.
  - pose proof (Forall_inv H) as [_ Hp]. apply Forall_inv_tail in H.
    change (join NL (p :: p' :: rest)) with (p ++ NL ++ join NL (p' :: rest)).
    rewrite (splitlines_from_one_line p _ _ Hp), app_nil_r.
    unfold NL at 1. change ([10%N] ++ ?x) with (10%N :: x).
    rewrite splitlines_from_cons. change (is_linebreak 10) with true. cbv iota.
    rewrite rev_involutive. f_equal.
    replace (after_break 10 (join NL (p' :: rest))) with (join NL (p' :: rest))
      by (destruct (join NL (p' :: rest)); reflexivity).
    exact (IH H).
Qed.


End Strings.

(** ** More on the corpus loader *)

Section LoaderMore.

Import rag_utils Spec Notions.

Variable split_text : Z -> Z -> str -> list str.
Variable parameter_error : Z -> Z -> Exception.

Lemma is_linebreak_space (c : N) : is_linebreak c = true -> is_space c = true.
Proof.
  unfold is_linebreak. simpl. rewrite !orb_true_iff.
  intros H. repeat destruct H as [H|H]; try discriminate;
    apply N.eqb_eq in H; subst c; reflexivity.
Qed.

(** The lines kept by [clean]: not empty, stripped, without a boundary. *)
Lemma clean_parts (raw : str) :
  Forall (fun ln => ln <> [] /\ strip ln = ln /\ one_line ln = true)
         (map strip (filter (fun ln => truthy (strip ln)) (splitlines raw))).
Proof.
  apply Forall_map, Forall_forall. intros ln Hin.
  apply filter_In in Hin as [Hin Hkeep].
  split; [|split].
  - intros Hnil. rewrite Hnil in Hkeep. discriminate.
  - apply strip_strip.
  - apply forallb_strip.
    pose proof (splitlines_one_line raw [] eq_refl) as Hlines.
    rewrite Forall_forall in Hlines. exact (Hlines ln Hin).
Qed.

Lemma filter_all {A} (p : A -> bool) (l : list A) :
  Forall (fun x => p x = true) l -> filter p l = l.
Proof.
  induction 1 as [|x l Hx _ IH]; simpl; [reflexivity|]. now rewrite Hx, IH.
Qed.

Lemma filter_none {A} (p : A -> bool) (l : list A) :
  Forall (fun x => p x = false) l <-> filter p l = [].
Proof.
  induction l as [|x l IH]; simpl; [split; auto|].
  destruct (p x) eqn:Hx; split; intros H.
  - apply Forall_inv in H. congruence.
  - discriminate.
  - apply IH. now apply Forall_inv_tail in H.
  - constructor; [exact Hx | now apply IH].
Qed.

Lemma map_id_on {A} (f : A -> A) (l : list A) :
  Forall (fun x => f x = x) l -> map f l = l.
Proof.
  induction 1 as [|x l Hx _ IH]; simpl; [reflexivity|]. now rewrite Hx, IH.
Qed.

Lemma join_nil (sep : str) (parts : list str) :
  Forall (fun p => p <> []) parts -> join sep parts = [] -> parts = [].
Proof.
  intros Hparts Hjoin. destruct parts as [|p rest]; [reflexivity|].
  apply Forall_inv in Hparts. destruct rest; simpl in Hjoin.
  - contradiction.
  - apply app_eq_nil in Hjoin as [Hp _]. contradiction.
Qed.

(** X1. The lines of a cleaned text are the non-blank lines of the raw
    text, each stripped, in order: none of them is empty and none starts
    or ends with whitespace. *)
Theorem clean_lines (raw : str) :
  splitlines (clean raw)
  = map strip (filter (fun ln => negb (blank ln)) (splitlines raw)) /\
  Forall (fun ln => ln <> [] /\ strip ln = ln) (splitlines (clean raw)).
Proof.
  assert (Hfilter : filter (fun ln => negb (blank ln)) (splitlines raw)
                    = filter (fun ln => truthy (strip ln)) (splitlines raw)).
  { apply filter_ext. intros ln. symmetry. apply truthy_strip. }
  rewrite Hfilter. unfold clean.
  pose proof (clean_parts raw) as Hparts.
  rewrite splitlines_join.
  - split; [reflexivity|].
    eapply Forall_impl; [|exact Hparts]. simpl. tauto.
  - eapply Forall_impl; [|exact Hparts]. simpl. tauto.
Qed.

(** X2. Cleaning a cleaned text changes nothing. *)
Theorem clean_idempotent (raw : str) : clean (clean raw) = clean raw.
Proof.
  pose proof (clean_parts raw) as Hparts.
  unfold clean at 1. unfold clean at 1.
  rewrite splitlines_join
    by (eapply Forall_impl; [|exact Hparts]; simpl; tauto).
  rewrite filter_all.
  - rewrite map_id_on; [reflexivity|].
    eapply Forall_impl; [|exact Hparts]. simpl. tauto.
  - eapply Forall_impl; [|exact Hparts]. simpl.
    intros ln (Hne & Hstrip & _). rewrite Hstrip. now destruct ln.
Qed.

(** X3. The cleaned text is empty exactly when the raw text holds nothing
    but whitespace.  A [.txt] file with such a text is still loaded: its
    empty text is kept as a document, counted in the summary and handed to
    the splitter, whose pieces for the empty text are returned under the
    name of the file. *)
Theorem clean_nil_iff_blank (raw : str) :
  (clean raw = [] <-> blank raw = true) /\
  forall (fp : DirEntry) (chunk_size overlap : Z),
    endswith (lit ".txt") (name fp) = true ->
    read_text fp = inr raw ->
    blank raw = true ->
    read_files [fp] = ([[]], [{| source := name fp |}], []) /\
    (valid_parameters chunk_size overlap = true ->
     load_and_chunk split_text parameter_error [fp] chunk_size overlap
     = (inr (split_text chunk_size overlap [],
             map (fun _ => {| source := name fp |}) (split_text chunk_size overlap [])),
        [Loaded 1 (len (split_text chunk_size overlap []))])).
Proof.
  assert (Hiff : clean raw = [] <-> blank raw = true).
  { split.
    - intros Hclean. unfold clean in Hclean.
      apply join_nil in Hclean;
        [|eapply Forall_impl; [|exact (clean_parts raw)]; simpl; tauto].
      apply map_eq_nil, filter_none in Hclean.
      eapply (splitlines_cover is_space raw []); [exact is_linebreak_space|].
      eapply Forall_impl; [|exact Hclean]. simpl. intros ln Hln.
      rewrite truthy_strip in Hln. now apply negb_false_iff in Hln.
    - intros Hblank. unfold clean.
      replace (filter _ (splitlines raw)) with (@nil str); [reflexivity|].
      symmetry. apply filter_none.
      eapply Forall_impl; [|exact (splitlines_forallb is_space raw [] eq_refl Hblank)].
      simpl. intros ln Hln. rewrite truthy_strip. unfold blank. now rewrite Hln. }
  split; [exact Hiff|].
  intros fp chunk_size overlap Hext Hread Hblank.
  apply Hiff in Hblank.
  assert (Hfiles : read_files [fp] = ([[]], [{| source := name fp |}], [])).
  { cbn [read_files]. now rewrite Hread, Hblank. }
  split; [exact Hfiles|].
  intros Hvalid. unfold load_and_chunk, glob_txt. cbn [filter].
  rewrite Hext, Hfiles, Hvalid. cbn [combine chunk_texts].
  rewrite !app_nil_r. reflexivity.
Qed.

Lemma loaded_docs_app (f1 f2 : list DirEntry) :
  loaded_docs (f1 ++ f2) = loaded_docs f1 ++ loaded_docs f2.
Proof. apply flat_map_app. Qed.

Lemma warnings_app (f1 f2 : list DirEntry) :
  warnings (f1 ++ f2) = warnings f1 ++ warnings f2.
Proof. apply flat_map_app. Qed.

Lemma chunk_texts_app (chunk_size overlap : Z) (d1 d2 : list (str * Meta)) :
  chunk_texts split_text chunk_size overlap (d1 ++ d2)
  = (fst (chunk_texts split_text chunk_size overlap d1)
     ++ fst (chunk_texts split_text chunk_size overlap d2),
     snd (chunk_texts split_text chunk_size overlap d1)
     ++ snd (chunk_texts split_text chunk_size overlap d2)).
Proof.
  induction d1 as [|[txt meta] d1 IH]; simpl.
  - now destruct (chunk_texts _ _ _ d2).
  - rewrite IH.
    destruct (chunk_texts _ _ _ d1) as [c1 m1].
    destruct (chunk_texts _ _ _ d2) as [c2 m2].
    simpl. now rewrite <- !app_assoc.
Qed.

Lemma warnings_are_warnings (files : list DirEntry) :
  Forall (fun line => exists file e, line = CouldNotRead file e) (warnings files).
Proof.
  apply Forall_forall. intros line Hin. unfold warnings in Hin.
  apply in_flat_map in Hin as (fp & _ & Hin).
  destruct (read_text fp) as [e|raw]; simpl in Hin; [|contradiction].
  destruct Hin as [<-|[]]. eauto.
Qed.

Lemma loaded_docs_count (files : list DirEntry) :
  length (loaded_docs files) = length (filter readable files).
Proof.
  induction files as [|fp files IH]; [reflexivity|].
  unfold loaded_docs in *. cbn [flat_map filter]. rewrite length_app, IH.
  unfold readable at 2. destruct (read_text fp); reflexivity.
Qed.

Lemma warnings_count (files : list DirEntry) :
  length (warnings files) = length (filter (fun fp => negb (readable fp)) files).
Proof.
  induction files as [|fp files IH]; [reflexivity|].
  unfold warnings in *. cbn [flat_map filter]. rewrite length_app, IH.
  unfold readable at 2. destruct (read_text fp); reflexivity.
Qed.

Lemma filter_split_length {A} (p : A -> bool) (l : list A) :
  (length (filter p l) + length (filter (fun x => negb (p x)) l) = length l)%nat.
Proof.
  induction l as [|x l IH]; [reflexivity|].
  cbn [filter]. destruct (p x); cbn [negb length]; lia.
Qed.

(** X4. Loading a folder made of two parts prints the warnings of the
    first part followed by those of the second; when the splitter accepts
    the parameters, it returns the chunks and the metadata of the first
    part followed by those of the second, and the counts of its summary
    line are the sums of the counts for the parts: every file is loaded on
    its own, and the files keep their order.  When the splitter rejects the
    parameters, the three calls raise its error after their warnings. *)
Theorem load_and_chunk_app (f1 f2 : Folder) (chunk_size overlap : Z) :
  let r1 := load_and_chunk split_text parameter_error f1 chunk_size overlap in
  let r2 := load_and_chunk split_text parameter_error f2 chunk_size overlap in
  let r := load_and_chunk split_text parameter_error (f1 ++ f2) chunk_size overlap in
  exists warned1 warned2 : list Printed,
    Forall (fun line => exists file e, line = CouldNotRead file e) (warned1 ++ warned2) /\
    if valid_parameters chunk_size overlap then
      exists chunks1 metas1 chunks2 metas2 documents1 documents2,
        r1 = (inr (chunks1, metas1), warned1 ++ [Loaded documents1 (len chunks1)]) /\
        r2 = (inr (chunks2, metas2), warned2 ++ [Loaded documents2 (len chunks2)]) /\
        r = (inr (chunks1 ++ chunks2, metas1 ++ metas2),
             (warned1 ++ warned2)
             ++ [Loaded (documents1 + documents2) (len chunks1 + len chunks2)])
    else
      r1 = (inl (parameter_error chunk_size overlap), warned1) /\
      r2 = (inl (parameter_error chunk_size overlap), warned2) /\
      r = (inl (parameter_error chunk_size overlap), warned1 ++ warned2).
Proof.
  cbv zeta. rewrite !load_and_chunk_eq.
  unfold glob_txt. rewrite filter_app. fold (glob_txt f1) (glob_txt f2).
  rewrite loaded_docs_app, warnings_app, chunk_texts_app.
  exists (warnings (glob_txt f1)), (warnings (glob_txt f2)).
  split; [rewrite <- warnings_app; apply warnings_are_warnings|].
  destruct (valid_parameters chunk_size overlap); [|auto].
  destruct (chunk_texts split_text chunk_size overlap (loaded_docs (glob_txt f1)))
    as [chunks1 metas1].
  destruct (chunk_texts split_text chunk_size overlap (loaded_docs (glob_txt f2)))
    as [chunks2 metas2].
  cbn [fst snd].
  exists chunks1, metas1, chunks2, metas2,
         (len (loaded_docs (glob_txt f1))), (len (loaded_docs (glob_txt f2))).
  split; [reflexivity|]. split; [reflexivity|].
  unfold len. rewrite !length_app, !Nat2Z.inj_add. reflexivity.
Qed.

(** X5. What [load_and_chunk] prints counts what it did.  One warning is
    printed for every [.txt] file of the folder whose read raises.  When
    the splitter accepts the parameters, the summary line follows: its
    number of documents is the number of [.txt] files that were read, so
    that documents and warnings add up to the [.txt] files of the folder,
    and its number of chunks is the length of both lists returned.  When
    the splitter rejects the parameters, the function raises and the
    warnings are all that is printed. *)
Theorem load_and_chunk_summary (folder : Folder) (chunk_size overlap : Z) :
  let r := load_and_chunk split_text parameter_error folder chunk_size overlap in
  let txt_files := filter (fun fp => endswith (lit ".txt") (name fp)) folder in
  exists warned : list Printed,
    Forall (fun line => exists file e, line = CouldNotRead file e) warned /\
    len warned = len (filter (fun fp => negb (readable fp)) txt_files) /\
    if valid_parameters chunk_size overlap then
      exists chunks chunk_metas documents,
        r = (inr (chunks, chunk_metas), warned ++ [Loaded documents (len chunks)]) /\
        documents = len (filter readable txt_files) /\
        (documents + len warned = len txt_files)%Z /\
        len chunks = len chunk_metas
    else r = (inl (parameter_error chunk_size overlap), warned).
Proof.
  cbv zeta. rewrite load_and_chunk_eq. unfold glob_txt.
  set (txt_files := filter (fun fp => endswith (lit ".txt") (name fp)) folder).
  exists (warnings txt_files).
  split; [apply warnings_are_warnings|].
  split; [unfold len; now rewrite warnings_count|].
  destruct (valid_parameters chunk_size overlap); [|reflexivity].
  pose proof (chunk_texts_length split_text chunk_size overlap (loaded_docs txt_files))
    as Hlen.
  destruct (chunk_texts split_text chunk_size overlap (loaded_docs txt_files))
    as [chunks metas].
  cbn [fst snd] in *.
  exists chunks, metas, (len (loaded_docs txt_files)).
  split; [reflexivity|]. unfold len.
  rewrite loaded_docs_count, warnings_count.
  split; [reflexivity|]. split; [|now rewrite Hlen].
  pose proof (filter_split_length readable txt_files). lia.
Qed.

End LoaderMore.

(** ** More on the prompt template *)

Section TemplateMore.

Import rag_utils Spec Notions.

Lemma option_map_app (l1 l2 : str) (o : option str) :
  option_map (app (l1 ++ l2)) o = option_map (app l1) (option_map (app l2) o).
Proof. destruct o; simpl; [now rewrite app_assoc | reflexivity]. Qed.

(** Literal text is copied as it is. *)
Lemma vformat_literal (kwargs : Kwargs) (text rest : str) :
  forallb plain_char text = true ->
  vformat kwargs InText (text ++ rest)
  = option_map (app text) (vformat kwargs InText rest).
Proof.
  induction text as [|c text IH]; intros H.
  - simpl. now destruct (vformat kwargs InText rest).
  - simpl in H. apply andb_prop in H as [Hc Htext].
    unfold plain_char in Hc. apply andb_prop in Hc as [Hl Hr].
    apply negb_true_iff in Hl, Hr.
    change ((c :: text) ++ rest) with (c :: (text ++ rest)).
    cbn [vformat]. rewrite Hl, Hr, (IH Htext).
    now destruct (vformat kwargs InText rest).
Qed.

Lemma vformat_in_field (kwargs : Kwargs) (name rest name_rev : str) :
  forallb name_char name = true ->
  vformat kwargs (InField name_rev) (name ++ RBRACE :: rest)
  = if is_index (rev name_rev ++ name) then None
    else match kwarg (rev name_rev ++ name) kwargs with
         | Some v => option_map (app v) (vformat kwargs InText rest)
         | None => None
         end.
Proof.
  revert name_rev. induction name as [|c name IH]; intros name_rev H.
  - simpl app. cbn [vformat]. rewrite N.eqb_refl, app_nil_r. reflexivity.
  - simpl in H. apply andb_prop in H as [Hc Hname].
    unfold name_char in Hc. apply andb_prop in Hc as [Hr Hs].
    apply negb_true_iff in Hr, Hs.
    change ((c :: name) ++ RBRACE :: rest) with (c :: (name ++ RBRACE :: rest)).
    cbn [vformat]. rewrite Hr, Hs, (IH _ Hname). simpl rev.
    now rewrite <- app_assoc.
Qed.

(** A replacement field with a plain name is replaced by the argument of
    that name; formatting fails when there is none. *)
Lemma vformat_field (kwargs : Kwargs) (c : N) (name rest : str) :
  forallb name_char (c :: name) = true ->
  is_index (c :: name) = false ->
  vformat kwargs InText (LBRACE :: (c :: name) ++ RBRACE :: rest)
  = match kwarg (c :: name) kwargs with
    | Some v => option_map (app v) (vformat kwargs InText rest)
    | None => None
    end.
Proof.
  intros H Hindex. pose proof H as Hall.
  simpl in H. apply andb_prop in H as [Hc Hname].
  unfold name_char in Hc. apply andb_prop in Hc as [Hr Hs].
  apply negb_true_iff in Hr, Hs.
  assert (Hl : N.eqb c LBRACE = false).
  { unfold is_field_syntax in Hs. simpl in Hs.
    apply orb_false_iff in Hs as [Hl _]. exact Hl. }
  change ((c :: name) ++ RBRACE :: rest) with (c :: (name ++ RBRACE :: rest)).
  cbn [vformat]. rewrite N.eqb_refl, Hl, Hr, Hs.
  rewrite (vformat_in_field kwargs name rest [c] Hname).
  change (rev [c] ++ name) with (c :: name). now rewrite Hindex.
Qed.

Lemma prompt_tpl_parts :
  template prompt_tpl
  = prompt_head
    ++ (LBRACE :: lit "context" ++ RBRACE :: prompt_middle
    ++ (LBRACE :: lit "question" ++ RBRACE :: prompt_tail ++ [])).
Proof. vm_compute. reflexivity. Qed.

(** X6. Formatting the prompt template needs both of its variables and
    nothing else: with arguments named [context] and [question] among the
    keyword arguments it returns the fixed text around them, whatever
    other arguments are given, and it fails when either is missing. *)
Theorem prompt_tpl_format_variables (kwargs : Kwargs) :
  format prompt_tpl kwargs
  = match kwarg (lit "context") kwargs, kwarg (lit "question") kwargs with
    | Some context, Some question =>
        Some (prompt_head ++ context ++ prompt_middle ++ question ++ prompt_tail)
    | _, _ => None
    end.
Proof.
  unfold format. rewrite prompt_tpl_parts.
  rewrite vformat_literal by (vm_compute; reflexivity).
  rewrite (vformat_field kwargs 99 (lit "ontext"))
    by (vm_compute; reflexivity).
  change (99%N :: lit "ontext") with (lit "context").
  destruct (kwarg (lit "context") kwargs) as [context|]; [|reflexivity].
  rewrite vformat_literal by (vm_compute; reflexivity).
  rewrite (vformat_field kwargs 113 (lit "uestion"))
    by (vm_compute; reflexivity).
  change (113%N :: lit "uestion") with (lit "question").
  destruct (kwarg (lit "question") kwargs) as [question|]; [|reflexivity].
  rewrite vformat_literal by (vm_compute; reflexivity).
  cbn [vformat option_map]. now rewrite app_nil_r.
Qed.

End TemplateMore.

(** ** More on the session *)

Section SessionMore.

Import rag_utils chatbot Spec Notions.

(** The streaming loop in closed form: the text collected and the texts
    drawn on the way. *)
Lemma consume_eq (chunks : list AIMessageChunk) :
  forall collected : str,
    consume collected chunks
    = (collected ++ streamed_text chunks,
       map (fun k => Streaming (collected ++ streamed_text (firstn k chunks)))
           (seq 1 (length chunks))).
Proof.
  induction chunks as [|chunk rest IH]; intros collected.
  - simpl. now rewrite app_nil_r.
  - cbn [consume]. rewrite IH. f_equal.
    + unfold streamed_text. simpl. now rewrite app_assoc.
    + cbn [length seq map]. f_equal.
      * unfold streamed_text. simpl. now rewrite app_nil_r.
      * rewrite <- (seq_shift (length rest) 1), map_map.
        apply map_ext. intros k.
        unfold streamed_text. simpl. now rewrite app_assoc.
Qed.

(** X7. When the generation call of a turn ends without raising, the
    reply recorded in the history is the fragments' contents put together
    in order (a missing content counts as empty); while streaming, the text
    drawn after the k-th fragment is the first k contents put together, and
    the final answer drawn is the whole reply. *)
Theorem complete_answer_recorded (t : Turn) (st : SessionState)
        (chunks : list AIMessageChunk) :
  generation t = Some (chunks, None) ->
  exists st' vars shown_before,
    query_turn t st
    = Some (st', vars,
            UserBubble (user_input t)
            :: shown_before
               ++ map (fun k => Streaming (streamed_text (firstn k chunks)))
                      (seq 1 (length chunks))
               ++ [FinalAnswer (streamed_text chunks)]) /\
    collected_response vars = streamed_text chunks /\
    history st'
    = ask (user_input t) (history st) ++ [AIMessage (streamed_text chunks)].
Proof.
  intros Hgen.
  destruct (respond_generation t Hgen)
    as (docs & vars & shown & Hr & Hs & Hc & shown_before & Hshown).
  assert (Hstream : stream_response (llm t) (full_prompt vars)
                    = (streamed_text chunks,
                       map (fun k => Streaming (streamed_text (firstn k chunks)))
                           (seq 1 (length chunks))
                       ++ [FinalAnswer (streamed_text chunks)])).
  { unfold stream_response. rewrite Hs, consume_eq. reflexivity. }
  rewrite Hstream in Hc, Hshown. apply (f_equal fst) in Hc. simpl in Hc.
  unfold query_turn. rewrite Hr, <- Hc, Hshown.
  do 3 eexists. split; [reflexivity|]. split; [now symmetry | reflexivity].
Qed.

(** X8. At the end of every query turn the history ends with the question
    just asked and its reply, after at most 19 older entries: trimming
    never drops the newest exchange. *)
Theorem newest_exchange_kept (t : Turn) (st : SessionState) :
  exists st' vars shown older,
    query_turn t st = Some (st', vars, shown) /\
    history st'
    = older ++ [HumanMessage (user_input t); AIMessage (collected_response vars)] /\
    (length older <= 19)%nat.
Proof.
  destruct (query_turn_eq t st) as (docs & vars & shown & _ & Hturn).
  rewrite Hturn. do 3 eexists.
  exists (skipn (length (history st ++ [HumanMessage (user_input t)]) - 20)
                (history st)).
  split; [reflexivity|]. simpl. split.
  - rewrite ask_last, skipn_app, <- app_assoc. f_equal.
    rewrite length_app. cbn [length].
    replace (length (history st) + 1 - 20 - length (history st))%nat
      with 0%nat by lia.
    reflexivity.
  - rewrite length_skipn, length_app. cbn [length]. lia.
Qed.

(** X9. While the conversation holds at most 21 messages, the history is
    the whole conversation: nothing is dropped during the first ten
    turns. *)
Theorem short_conversation_kept (actions : list Action) (st : SessionState)
        (log : list Message) :
  run actions initial_session = Some st ->
  conversation [] actions = Some log ->
  (length log <= 21)%nat ->
  history st = log.
Proof.
  intros Hrun Hlog Hshort.
  destruct (run_keeps_last actions initial_session [] eq_refl)
    as (st' & log' & Hrun' & Hlog' & Hinv).
  rewrite Hrun in Hrun'. injection Hrun' as <-.
  rewrite Hlog in Hlog'. injection Hlog' as <-.
  rewrite Hinv. replace (length log - 21)%nat with 0%nat by lia. reflexivity.
Qed.

(** X10. When the index query of a turn returns documents, these become
    [last_docs], the context is their texts in the order returned, with a
    blank line between them, and the prompt sent to the chat model
    contains the text of every one of them and the question. *)
Theorem retrieved_documents_reach_prompt (t : Turn) (st : SessionState)
        (docs : list Document) :
  similarity_search (store t) (user_input t) (k_docs t) = inr docs ->
  exists st' vars shown,
    query_turn t st = Some (st', vars, shown) /\
    last_docs st' = docs /\
    context vars = join (NL ++ NL) (map page_content docs) /\
    full_prompt vars
    = prompt_head ++ context vars ++ prompt_middle ++ user_input t ++ prompt_tail /\
    Forall (fun doc => contains (page_content doc) (full_prompt vars)) docs /\
    contains (user_input t) (full_prompt vars).
Proof.
  intros Hsearch. unfold query_turn. rewrite respond_eq.
  unfold retrieve. rewrite Hsearch. cbv zeta.
  destruct (stream_response _ _) as [collected shown_stream].
  do 3 eexists. split; [reflexivity|].
  cbn [context full_prompt last_docs].
  split; [reflexivity|]. split; [reflexivity|]. split; [reflexivity|].
  split.
  - apply Forall_forall. intros doc Hin.
    apply contains_app_r, contains_app_l.
    pose proof (join_contains (NL ++ NL) (map page_content docs)) as Hjoin.
    rewrite Forall_forall in Hjoin. apply Hjoin. now apply in_map.
  - do 3 apply contains_app_r. apply contains_app_l, contains_refl.
Qed.

(** X11. The label of a suggestion button loses what stands before its
    first space, the space included; a label without a space is kept
    whole. *)
Theorem clean_text_after_first_space (icon text : str) :
  forallb (fun c => negb (N.eqb c 32)) icon = true ->
  clean_text (icon ++ 32%N :: text) = text /\ clean_text icon = icon.
Proof.
  intros Hicon. unfold clean_text.
  assert (Hsome : after_first_space (icon ++ 32%N :: text) = Some text
                  /\ after_first_space icon = None).
  { induction icon as [|c icon IH]; [split; reflexivity|].
    simpl in Hicon. apply andb_prop in Hicon as [Hc Hicon].
    apply negb_true_iff in Hc. simpl. rewrite Hc. now apply IH. }
  destruct Hsome as [-> ->]. split; reflexivity.
Qed.

Lemma content_preview_length (page_content : str) :
  (length (content_preview page_content) <= 403)%nat.
Proof.
  unfold content_preview, len.
  destruct (Z.gtb_spec (Z.of_nat (length page_content)) 400).
  - rewrite length_app, length_firstn. change (length (lit "...")) with 3%nat.
    pose proof (Nat.le_min_l 400 (length page_content)). lia.
  - rewrite length_firstn.
    pose proof (Nat.le_min_l 400 (length page_content)). lia.
Qed.

Lemma source_cards_idx (docs : list Document) :
  forall first : Z,
    map idx (source_cards first docs)
    = map (fun i => (first + Z.of_nat i)%Z) (seq 0 (length docs)).
Proof.
  induction docs as [|doc docs IH]; intros first; [reflexivity|].
  cbn [source_cards map length seq idx]. f_equal; [cbn [Z.of_nat]; lia|].
  rewrite IH, <- (seq_shift (length docs) 0), map_map.
  apply map_ext. intros i. lia.
Qed.

Lemma source_cards_source_name (docs : list Document) :
  forall first : Z,
    map source_name (source_cards first docs)
    = map (fun doc => source (metadata doc)) docs.
Proof.
  induction docs as [|doc docs IH]; intros first; [reflexivity|].
  cbn [source_cards map source_name]. now rewrite IH.
Qed.

Lemma source_cards_preview (docs : list Document) :
  forall first : Z,
    Forall2 (fun doc card =>
               (length (card_preview card) <= 403)%nat /\
               firstn 400 (card_preview card) = firstn 400 (page_content doc) /\
               ((length (page_content doc) <= 400)%nat ->
                card_preview card = page_content doc))
            docs (source_cards first docs).
Proof.
  induction docs as [|doc docs IH]; intros first;
    cbn [source_cards]; constructor; [|apply IH].
  cbn [card_preview]. split; [apply content_preview_length|].
  unfold content_preview, len.
  destruct (Z.gtb_spec (Z.of_nat (length (page_content doc))) 400) as [Hlong|Hshort].
  - split; [|lia]. rewrite firstn_app, firstn_firstn, length_firstn.
    rewrite (Nat.min_l 400 (length (page_content doc))) by lia.
    rewrite Nat.min_id, Nat.sub_diag. simpl. apply app_nil_r.
  - split; [now rewrite firstn_firstn, Nat.min_id|].
    intros _. apply firstn_all2. lia.
Qed.

(** X12. After a query turn with [show_sources] on, the panel has one
    card for each document retrieved in that turn, in order and numbered
    from 1, with the document's source and a preview of at most 403
    characters that is the whole content when it has at most 400; with
    [show_sources] off, or when the index query raised or returned
    nothing, the panel has no card. *)
Theorem source_panel_after_turn (t : Turn) (st : SessionState) (show_sources : bool) :
  exists st' vars shown,
    query_turn t st = Some (st', vars, shown) /\
    source_documents show_sources st'
    = (if show_sources then source_cards 1 (retrieved t) else []) /\
    map idx (source_cards 1 (retrieved t))
    = map (fun i => (1 + Z.of_nat i)%Z) (seq 0 (length (retrieved t))) /\
    map source_name (source_cards 1 (retrieved t))
    = map (fun doc => source (metadata doc)) (retrieved t) /\
    Forall2 (fun doc card =>
               (length (card_preview card) <= 403)%nat /\
               firstn 400 (card_preview card) = firstn 400 (page_content doc) /\
               ((length (page_content doc) <= 400)%nat ->
                card_preview card = page_content doc))
            (retrieved t) (source_cards 1 (retrieved t)).
Proof.
  destruct (query_turn_eq t st) as (docs & vars & shown & Hr & Hturn).
  assert (Hdocs : docs = retrieved t).
  { rewrite respond_eq in Hr. unfold retrieve, retrieved in *.
    destruct (similarity_search _ _ _); cbv zeta in Hr;
      destruct (stream_response _ _); now injection Hr as <- _ _. }
  rewrite Hturn. do 3 eexists. split; [reflexivity|]. subst docs.
  split; [|split; [apply source_cards_idx|split]].
  - unfold source_documents. cbn [last_docs].
    destruct show_sources; [|reflexivity].
    destruct (retrieved t); reflexivity.
  - apply source_cards_source_name.
  - apply source_cards_preview.
Qed.

End SessionMore.

(** ** File names *)

Section Names.

Import Notions pdf_to_txt.

Lemma str_eqb_refl (s : str) : str_eqb s s = true.
Proof. induction s as [|c s IH]; simpl; [|rewrite N.eqb_refl]; auto. Qed.

Lemma endswith_app (suffix s : str) : endswith suffix (s ++ suffix) = true.
Proof.
  unfold endswith. rewrite length_app.
  replace (length s + length suffix - length suffix)%nat with (length s) by lia.
  rewrite skipn_app, skipn_all, Nat.sub_diag. simpl.
  rewrite str_eqb_refl, andb_true_r. apply Nat.leb_le. lia.
Qed.

Lemma rfind_none (c : N) (s : str) :
  rfind c s = None <-> forallb (fun x => negb (N.eqb x c)) s = true.
Proof.
  induction s as [|x s IH]; simpl; [tauto|].
  destruct (rfind c s) as [i|].
  - split; [discriminate|]. intros H. apply andb_prop in H as [_ H].
    apply IH in H. discriminate.
  - destruct (N.eqb x c); simpl; [split; discriminate|].
    split; intros _; [now apply IH | reflexivity].
Qed.

(** Nothing after the last occurrence is the character looked for. *)
Lemma rfind_after (c : N) (s : str) :
  forall i, rfind c s = Some i ->
            forallb (fun x => negb (N.eqb x c)) (skipn (S i) s) = true.
Proof.
  induction s as [|x s IH]; intros i H; [discriminate|].
  simpl in H. destruct (rfind c s) as [j|] eqn:Hs.
  - injection H as <-. now apply IH.
  - destruct (N.eqb x c); [|discriminate]. injection H as <-.
    now apply rfind_none.
Qed.

Lemma rfind_last (c : N) (a b : str) :
  forallb (fun x => negb (N.eqb x c)) b = true ->
  rfind c (a ++ c :: b) = Some (length a).
Proof.
  intros Hb. apply rfind_none in Hb.
  induction a as [|x a IH]; simpl.
  - now rewrite Hb, N.eqb_refl.
  - now rewrite IH.
Qed.

Lemma basename_no_slash (p : str) :
  forallb (fun x => negb (N.eqb x 47)) (basename p) = true.
Proof.
  unfold basename. destruct (rfind 47 p) as [i|] eqn:H.
  - now apply rfind_after.
  - now apply rfind_none.
Qed.

Lemma forallb_firstn (P : N -> bool) (n : nat) (s : str) :
  forallb P s = true -> forallb P (firstn n s) = true.
Proof.
  revert s. induction n as [|n IH]; intros [|c s] H; try reflexivity.
  simpl in *. apply andb_prop in H as [Hc Hs]. now rewrite Hc, IH.
Qed.

Lemma out_name_txt {Image Num : Type} (pdf_file : PdfFile Image Num) :
  endswith (lit ".txt") (out_name pdf_file) = true /\
  forallb (fun x => negb (N.eqb x 47)) (out_name pdf_file) = true.
Proof.
  unfold out_name. split; [apply endswith_app|].
  rewrite forallb_app. apply andb_true_intro. split; [|reflexivity].
  pose proof (basename_no_slash (path pdf_file)) as Hbase.
  unfold stem. destruct (rfind 46 (basename (path pdf_file))) as [i|];
    [|exact Hbase].
  destruct (_ && _); [now apply forallb_firstn | exact Hbase].
Qed.

(** X20. Two PDF files of one folder whose names differ only in the case
    of the extension, [.pdf] and [.PDF], are written to the same output
    file, named after what stands before the extension. *)
Theorem pdf_and_PDF_share_output {Image Num : Type} (lower upper : PdfFile Image Num)
        (folder base : str) :
  base <> [] ->
  forallb (fun x => negb (N.eqb x 47)) base = true ->
  path lower = folder ++ lit "/" ++ base ++ lit ".pdf" ->
  path upper = folder ++ lit "/" ++ base ++ lit ".PDF" ->
  out_name lower = base ++ lit ".txt" /\ out_name upper = base ++ lit ".txt".
Proof.
  intros Hbase Hslash Hlower Hupper.
  assert (Hname : forall ext : str,
             forallb (fun x => negb (N.eqb x 47)) ext = true ->
             forallb (fun x => negb (N.eqb x 46)) ext = true ->
             (2 <= length ext)%nat ->
             stem (basename (folder ++ lit "/" ++ base ++ 46%N :: ext)) = base).
  { intros ext Hext Hdot Hlen.
    assert (Hb : basename (folder ++ lit "/" ++ base ++ 46%N :: ext)
                 = base ++ 46%N :: ext).
    { unfold basename. change (lit "/" ++ ?x) with (47%N :: x).
      rewrite rfind_last.
      - rewrite skipn_app, skipn_all2 by lia.
        replace (S (length folder) - length folder)%nat with 1%nat by lia.
        reflexivity.
      - rewrite forallb_app, Hslash. simpl. exact Hext. }
    rewrite Hb. unfold stem. rewrite (rfind_last 46 base ext Hdot).
    rewrite length_app. cbn [length].
    replace ((0 <? length base)%nat) with true
      by (symmetry; apply Nat.ltb_lt; destruct base; [contradiction | simpl; lia]).
    replace ((length base <? length base + S (length ext) - 1)%nat) with true
      by (symmetry; apply Nat.ltb_lt; lia).
    cbn [andb]. rewrite firstn_app, firstn_all, Nat.sub_diag. simpl.
    apply app_nil_r. }
  unfold out_name. rewrite Hlower, Hupper.
  change (lit ".pdf") with (46%N :: lit "pdf").
  change (lit ".PDF") with (46%N :: lit "PDF").
  rewrite !Hname by (vm_compute; reflexivity || lia). split; reflexivity.
Qed.

End Names.

(** ** The PDF converter *)

Section Converter.

Import Notions pdf_to_txt.

Variable Image : Type.
Variable grayscale : Image -> list (list Z).
Variable image_to_string : list (list Z) -> str -> Exception + str.
Variable Num : Type.
Variable zero : Num.
Variable half : Num -> Num.
Variable write_text : str -> str -> option Exception.

Local Abbreviation text_or_ocr := (text_or_ocr grayscale image_to_string).
Local Abbreviation extract_standard_page :=
  (extract_standard_page grayscale image_to_string (Num := Num)).
Local Abbreviation extract_two_column_page :=
  (extract_two_column_page grayscale image_to_string zero half).
Local Abbreviation extract_pages :=
  (extract_pages grayscale image_to_string zero half).
Local Abbreviation extract_text_from_pdf :=
  (extract_text_from_pdf grayscale image_to_string zero half).
Local Abbreviation convert_files :=
  (convert_files grayscale image_to_string zero half write_text).
Local Abbreviation process_all_pdfs :=
  (process_all_pdfs grayscale image_to_string zero half write_text).
Local Abbreviation written_for :=
  (PdfNotions.written_for grayscale image_to_string zero half write_text).

(** X13. A page whose embedded text has a character that is not
    whitespace gives that text as it is: OCR is not consulted, whatever
    rendering the page or reading its image would do. *)
Theorem embedded_text_wins (page : Page Image Num) (ocr_config text : str) :
  extract_text (whole page) = inr (Some text) ->
  blank text = false ->
  extract_standard_page page ocr_config = inr text.
Proof.
  intros Htext Hblank. unfold pdf_to_txt.extract_standard_page, pdf_to_txt.text_or_ocr.
  rewrite Htext, truthy_strip, Hblank. reflexivity.
Qed.

(** X14. A page without embedded text, or whose embedded text is blank,
    gives what OCR reads from its image, and that image has the shape of
    the grayscale image and only the levels 0 and 255: 0 where the gray
    level is under 150. *)
Theorem blank_page_is_read_by_ocr (page : Page Image Num) (ocr_config : str)
        (extracted : option str) (img : Image) :
  extract_text (whole page) = inr extracted ->
  blank (match extracted with Some s => s | None => [] end) = true ->
  to_image (whole page) = inr img ->
  exists bw,
    extract_standard_page page ocr_config = image_to_string bw ocr_config /\
    map (@length Z) bw = map (@length Z) (grayscale img) /\
    Forall2 (Forall2 (fun gray level =>
                        level = if (gray <? 150)%Z then 0%Z else 255%Z))
            (grayscale img) bw.
Proof.
  intros Htext Hblank Himg. exists (preprocess_image_to_bw grayscale img).
  split; [|split].
  - unfold pdf_to_txt.extract_standard_page, pdf_to_txt.text_or_ocr.
    rewrite Htext, truthy_strip, Hblank, Himg. reflexivity.
  - unfold preprocess_image_to_bw. rewrite map_map. apply map_ext.
    intros row. apply length_map.
  - unfold preprocess_image_to_bw.
    induction (grayscale img) as [|row rows IH]; constructor; [|exact IH].
    induction row as [|gray row IHrow]; constructor; [reflexivity | exact IHrow].
Qed.



Lemma startswith_nil (s : str) : startswith [] s = true.
Proof. now destruct s. Qed.

Lemma filter_noise_empty_pattern (noise_patterns : list str) (lines : list str) :
  In [] noise_patterns -> filter_noise noise_patterns lines = [].
Proof.
  intros Hin. induction lines as [|line lines IH]; [reflexivity|].
  simpl. replace (is_noise noise_patterns line) with true; [exact IH|].
  symmetry. unfold is_noise. apply existsb_exists. exists []. split; [exact Hin|].
  destruct (strip line); reflexivity.
Qed.

(** The two-column extraction, once both columns gave their text. *)
Lemma extract_two_column_page_eq (page : Page Image Num) (ocr_config : str)
      (noise_patterns : option (list str))
      (left_column right_column : Region Image) (left_txt right_txt : str) :
  within_bbox page (zero, zero, half (width page), height page) = inr left_column ->
  text_or_ocr left_column ocr_config = inr left_txt ->
  within_bbox page (half (width page), zero, width page, height page)
  = inr right_column ->
  text_or_ocr right_column ocr_config = inr right_txt ->
  extract_two_column_page page ocr_config noise_patterns
  = inr (join NL (filter_noise (or_empty noise_patterns)
                               (splitlines (left_txt ++ NL ++ right_txt)))).
Proof.
  intros Hl Hlt Hr Hrt. unfold pdf_to_txt.extract_two_column_page.
  rewrite Hl, Hlt, Hr, Hrt. reflexivity.
Qed.

(** X15. An empty string among the noise patterns occurs in every line:
    the two-column extraction of a page then returns the empty text,
    whatever its columns hold. *)
Theorem empty_noise_pattern_drops_all (page : Page Image Num) (ocr_config : str)
        (noise_patterns : list str)
        (left_column right_column : Region Image) (left_txt right_txt : str) :
  within_bbox page (zero, zero, half (width page), height page) = inr left_column ->
  text_or_ocr left_column ocr_config = inr left_txt ->
  within_bbox page (half (width page), zero, width page, height page)
  = inr right_column ->
  text_or_ocr right_column ocr_config = inr right_txt ->
  In [] noise_patterns ->
  extract_two_column_page page ocr_config (Some noise_patterns) = inr [].
Proof.
  intros Hl Hlt Hr Hrt Hin.
  rewrite (extract_two_column_page_eq _ _ _ Hl Hlt Hr Hrt).
  simpl or_empty. now rewrite filter_noise_empty_pattern.
Qed.


(** The page loop, when it ends without an exception. *)
Lemma extract_pages_ok (is_two_column : bool) (noise_patterns : list str)
      (pages : list (Page Image Num)) (n : Z) :
  forall (i : Z) (pages_txt : list str) (out : list Line),
    extract_pages is_two_column noise_patterns pages i n = (inr pages_txt, out) ->
    Forall2 (fun page txt =>
               (if is_two_column
                then extract_two_column_page page OCR_CONFIG (Some noise_patterns)
                else extract_standard_page page OCR_CONFIG) = inr txt)
            pages pages_txt /\
    out = map (fun k => Progress (i + 1 + Z.of_nat k) n) (seq 0 (length pages)).
Proof.
  induction pages as [|page rest IH]; intros i pages_txt out H.
  - injection H as <- <-. split; [constructor | reflexivity].
  - cbn [pdf_to_txt.extract_pages] in H.
    destruct (if is_two_column
              then extract_two_column_page page OCR_CONFIG (Some noise_patterns)
              else extract_standard_page page OCR_CONFIG) as [e|txt] eqn:Hpage;
      [discriminate|].
    destruct (extract_pages is_two_column noise_patterns rest (i + 1) n)
      as [[e|rest_txt] rest_out] eqn:Hrest; [discriminate|].
    injection H as <- <-. destruct (IH _ _ _ Hrest) as [Htexts Hout].
    split; [now constructor|].
    cbn [length seq map]. f_equal; [f_equal; lia|].
    rewrite Hout, <- (seq_shift (length rest) 0), map_map.
    apply map_ext. intros k. f_equal. lia.
Qed.

(** X17. A text is returned for a PDF only when it could be opened and
    every one of its pages was extracted: the text is then the texts of
    all pages, in order, with a blank line between them, the layout being
    chosen once for the whole document from its file name; a progress line
    was written for every page, then a line end. *)
Theorem extract_text_from_pdf_all_pages (pdf_path : str)
        (two_column_patterns noise_patterns : option (list str))
        (opened : Exception + list (Page Image Num)) (txt : str) (out : list Line) :
  extract_text_from_pdf pdf_path two_column_patterns noise_patterns opened
  = (inr txt, out) ->
  exists pages pages_txt,
    opened = inr pages /\
    Forall2 (fun page page_txt =>
               (if existsb (fun pat => str_in pat (basename pdf_path))
                           (or_empty two_column_patterns)
                then extract_two_column_page page OCR_CONFIG
                                             (Some (or_empty noise_patterns))
                else extract_standard_page page OCR_CONFIG) = inr page_txt)
            pages pages_txt /\
    txt = join (NL ++ NL) pages_txt /\
    out = map (fun k => Progress (1 + Z.of_nat k) (len pages)) (seq 0 (length pages))
          ++ [Newline].
Proof.
  unfold pdf_to_txt.extract_text_from_pdf. intros H.
  destruct opened as [e|pages]; [discriminate|].
  destruct (extract_pages _ _ pages 0 (len pages)) as [[e|pages_txt] lines] eqn:Hpages;
    [discriminate|].
  injection H as <- <-. destruct (extract_pages_ok _ _ _ _ _ Hpages) as [Htexts Hout].
  exists pages, pages_txt. split; [reflexivity|]. split; [exact Htexts|].
  split; [reflexivity|]. now rewrite Hout.
Qed.

Lemma convert_files_written (two_column_patterns noise_patterns : option (list str))
      (pdf_files : list (PdfFile Image Num)) :
  fst (convert_files two_column_patterns noise_patterns pdf_files)
  = flat_map (written_for two_column_patterns noise_patterns) pdf_files.
Proof.
  induction pdf_files as [|pdf_file rest IH]; [reflexivity|].
  cbn [pdf_to_txt.convert_files flat_map]. unfold PdfNotions.written_for at 1.
  destruct (convert_files two_column_patterns noise_patterns rest)
    as [written out].
  destruct (extract_text_from_pdf _ _ _ _) as [txt progress].
  cbn [fst snd] in *. rewrite <- IH.
  destruct txt as [e|txt]; [|destruct (write_text (out_name pdf_file) txt) as [e|]];
    reflexivity.
Qed.

Lemma extract_pages_progress (is_two_column : bool) (noise_patterns : list str)
      (pages : list (Page Image Num)) (n : Z) :
  forall i : Z,
    Forall (fun line => exists k m, line = Progress k m)
           (snd (extract_pages is_two_column noise_patterns pages i n)).
Proof.
  induction pages as [|page rest IH]; intros i; [constructor|].
  cbn [pdf_to_txt.extract_pages].
  destruct (if is_two_column
            then extract_two_column_page page OCR_CONFIG (Some noise_patterns)
            else extract_standard_page page OCR_CONFIG) as [e|txt].
  - constructor; [eauto | constructor].
  - specialize (IH (i + 1)%Z).
    destruct (extract_pages is_two_column noise_patterns rest (i + 1) n)
      as [pages_txt out].
    constructor; [eauto | exact IH].
Qed.

(** While a file is converted, only progress lines and the line end after
    them are written. *)
Lemma extract_text_from_pdf_progress (pdf_path : str)
      (two_column_patterns noise_patterns : option (list str))
      (opened : Exception + list (Page Image Num)) :
  Forall (fun line => (exists k m, line = Progress k m) \/ line = Newline)
         (snd (extract_text_from_pdf pdf_path two_column_patterns noise_patterns
                                     opened)).
Proof.
  unfold pdf_to_txt.extract_text_from_pdf.
  destruct opened as [e|pages]; [constructor|].
  pose proof (extract_pages_progress
                (existsb (fun pat => str_in pat (basename pdf_path))
                         (or_empty two_column_patterns))
                (or_empty noise_patterns) pages (len pages) 0) as Hpages.
  destruct (extract_pages _ _ pages 0 (len pages)) as [[e|pages_txt] out];
    cbn [snd] in *.
  - eapply Forall_impl; [|exact Hpages]. intros line H. now left.
  - apply Forall_app. split.
    + eapply Forall_impl; [|exact Hpages]. intros line H. now left.
    + constructor; [now right | constructor].
Qed.

(** The lines of the loop over the files, file by file. *)
Lemma convert_files_blocks (two_column_patterns noise_patterns : option (list str))
      (pdf_files : list (PdfFile Image Num)) :
  exists blocks : list (list Line),
    snd (convert_files two_column_patterns noise_patterns pdf_files) = concat blocks /\
    Forall2 (fun pdf_file block =>
               exists progress last,
                 block = Processing (basename (path pdf_file)) :: progress ++ [last] /\
                 Forall (fun line => (exists k m, line = Progress k m) \/ line = Newline)
                        progress /\
                 ((last = Saved (out_name pdf_file) /\
                   exists txt,
                     written_for two_column_patterns noise_patterns pdf_file
                     = [(out_name pdf_file, txt)])
                  \/ (exists e,
                         last = Error e /\
                         written_for two_column_patterns noise_patterns pdf_file = [])))
            pdf_files blocks.
Proof.
  induction pdf_files as [|pdf_file rest IH]; [exists []; split; [reflexivity | constructor]|].
  destruct IH as (blocks & Hout & Hblocks).
  cbn [pdf_to_txt.convert_files].
  destruct (convert_files two_column_patterns noise_patterns rest)
    as [written out].
  pose proof (extract_text_from_pdf_progress
                (path pdf_file) (Some (or_empty two_column_patterns))
                (Some (or_empty noise_patterns)) (pdf_open pdf_file)) as Hprogress.
  assert (Hwritten : written_for two_column_patterns noise_patterns pdf_file
                     = match fst (extract_text_from_pdf
                                    (path pdf_file) (Some (or_empty two_column_patterns))
                                    (Some (or_empty noise_patterns)) (pdf_open pdf_file)) with
                       | inl _ => []
                       | inr txt =>
                           match write_text (out_name pdf_file) txt with
                           | Some _ => []
                           | None => [(out_name pdf_file, txt)]
                           end
                       end) by reflexivity.
  destruct (extract_text_from_pdf _ _ _ _) as [txt progress].
  cbn [fst snd] in *. subst out.
  assert (Hstep : forall last : Line,
             (Processing (basename (path pdf_file)) :: progress) ++ last :: concat blocks
             = concat ((Processing (basename (path pdf_file)) :: progress ++ [last])
                         :: blocks)).
  { intros last. cbn [concat app]. now rewrite <- app_assoc. }
  destruct txt as [e|txt]; [|destruct (write_text (out_name pdf_file) txt) as [e|]];
    cbn [snd]; eexists; (split; [apply Hstep|]);
    (constructor; [|exact Hblocks]); do 2 eexists;
    (split; [reflexivity|]); (split; [exact Hprogress|]).
  - right. exists e. split; [reflexivity | exact Hwritten].
  - right. exists e. split; [reflexivity | exact Hwritten].
  - left. split; [reflexivity|]. exists txt. exact Hwritten.
Qed.

(** X18. When the output folder can be made, the files written are, in
    the order of the PDF files ([*.pdf] first, then [*.PDF]), those of the
    files whose text could be extracted and written: a file that fails
    costs only its own output.  After the line that counts the files,
    every PDF file has, in that order, a run of lines of its own: a line that
    names it, the progress lines of its pages, and one last line, which
    says that its text was saved under its output name when the file was
    written, and gives an error when it was not.  Without any PDF file
    nothing is written and a single line says so. *)
Theorem process_all_pdfs_one_by_one (input_folder : str)
        (entries : list (PdfFile Image Num))
        (two_column_patterns noise_patterns : option (list str)) :
  let pdf_files := glob_suffix (lit ".pdf") entries
                   ++ glob_suffix (lit ".PDF") entries in
  exists out,
    process_all_pdfs input_folder entries None two_column_patterns noise_patterns
    = inr (flat_map (written_for two_column_patterns noise_patterns) pdf_files, out) /\
    match pdf_files with
    | [] => out = [NoPdfFound input_folder]
    | _ =>
        exists blocks : list (list Line),
          out = Found (len pdf_files) :: concat blocks ++ [Done] /\
          Forall2 (fun pdf_file block =>
                     exists progress last,
                       block = Processing (basename (path pdf_file))
                                          :: progress ++ [last] /\
                       Forall (fun line =>
                                 (exists k m, line = Progress k m) \/ line = Newline)
                              progress /\
                       ((last = Saved (out_name pdf_file) /\
                         exists txt,
                           written_for two_column_patterns noise_patterns pdf_file
                           = [(out_name pdf_file, txt)])
                        \/ (exists e,
                               last = Error e /\
                               written_for two_column_patterns noise_patterns pdf_file
                               = [])))
                  pdf_files blocks
    end.
Proof.
  cbv zeta. unfold pdf_to_txt.process_all_pdfs.
  generalize (glob_suffix (lit ".pdf") entries ++ glob_suffix (lit ".PDF") entries).
  intros pdf_files.
  pose proof (convert_files_written two_column_patterns noise_patterns pdf_files)
    as Hwritten.
  destruct (convert_files_blocks two_column_patterns noise_patterns pdf_files)
    as (blocks & Hout & Hblocks).
  destruct (convert_files two_column_patterns noise_patterns pdf_files)
    as [written out].
  cbn [fst snd] in *. subst written out.
  destruct pdf_files as [|pdf_file rest].
  - eexists. split; reflexivity.
  - eexists. split; [reflexivity|]. exists blocks. split; [reflexivity | exact Hblocks].
Qed.

(** X19. Every file the converter writes has a name without a slash, so
    that it lies in the output folder itself, and ending in [.txt], so
    that the corpus loader's search for [*.txt] finds it. *)
Theorem written_files_are_found_by_loader (input_folder : str)
        (entries : list (PdfFile Image Num)) (mkdir : option Exception)
        (two_column_patterns noise_patterns : option (list str))
        (written : list (str * str)) (out : list Line) :
  process_all_pdfs input_folder entries mkdir two_column_patterns noise_patterns
  = inr (written, out) ->
  Forall (fun file =>
            forallb (fun x => negb (N.eqb x 47)) (fst file) = true /\
            endswith (lit ".txt") (fst file) = true /\
            forall read : Exception + str,
              rag_utils.glob_txt [rag_utils.Build_DirEntry (fst file) read]
              = [rag_utils.Build_DirEntry (fst file) read])
         written.
Proof.
  intros H. destruct mkdir as [e|]; [discriminate|].
  unfold pdf_to_txt.process_all_pdfs in H.
  assert (Hwritten : exists pdf_files,
             written = flat_map (written_for two_column_patterns noise_patterns)
                                pdf_files).
  { destruct (glob_suffix (lit ".pdf") entries ++ glob_suffix (lit ".PDF") entries)
      as [|pdf_file rest].
    - injection H as <- _. now exists [].
    - pose proof (convert_files_written two_column_patterns noise_patterns
                                        (pdf_file :: rest)) as Heq.
      destruct (convert_files _ _ (pdf_file :: rest)) as [written' out'].
      injection H as <- _. now exists (pdf_file :: rest). }
  destruct Hwritten as [pdf_files ->]. clear H.
  apply Forall_forall. intros [file_name txt] Hin.
  apply in_flat_map in Hin as (pdf_file & _ & Hin).
  unfold PdfNotions.written_for in Hin.
  destruct (fst _) as [e|txt']; [contradiction|].
  destruct (write_text _ _); [contradiction|].
  destruct Hin as [Heq|[]]. injection Heq as <- <-.
  destruct (out_name_txt pdf_file) as [Htxt Hslash].
  cbn [fst]. split; [exact Hslash|]. split; [exact Htxt|].
  intros read. unfold rag_utils.glob_txt. cbn [filter rag_utils.name].
  now rewrite Htxt.
Qed.

End Converter.

(** ** The further statements on sample inputs *)

Section MoreSamples.

Import rag_utils chatbot Spec Notions pdf_to_txt PdfSamples.

Lemma clean_nil_iff_blank_witness :
  blank (lit "  " ++ NL ++ [9%N] ++ NL) = true /\
  load_and_chunk in_halves rejected [blank_entry] 500 50
  = (inr ([[]; []],
          [{| source := lit "blank.txt" |}; {| source := lit "blank.txt" |}]),
     [Loaded 1 2]).
Proof.
  split; [reflexivity|].
  destruct (clean_nil_iff_blank in_halves rejected (lit "  " ++ NL ++ [9%N] ++ NL))
    as [_ Hloaded].
  destruct (Hloaded blank_entry 500%Z 50%Z eq_refl eq_refl eq_refl) as [_ Hload].
  rewrite (Hload eq_refl). reflexivity.
Defined.

Lemma complete_answer_recorded_witness :
  generation (kayak_turn one_doc_store polite_llm)
  = Some ([fragment "Kayak tours "; fragment "are offered."], None) /\
  exists st',
    option_map (fun r => fst (fst r))
               (query_turn (kayak_turn one_doc_store polite_llm) initial_session)
    = Some st' /\
    history st'
    = [HumanMessage (lit "Tell me about the kayak tour.");
       AIMessage (lit "Kayak tours are offered.")].
Proof.
  assert (Hgen : generation (kayak_turn one_doc_store polite_llm)
                 = Some ([fragment "Kayak tours "; fragment "are offered."], None))
    by (vm_compute; reflexivity).
  split; [exact Hgen|].
  destruct (complete_answer_recorded (kayak_turn one_doc_store polite_llm)
                                     initial_session Hgen)
    as (st' & vars & shown & Hturn & _ & Hhistory).
  exists st'. rewrite Hturn. split; [reflexivity|].
  rewrite Hhistory. reflexivity.
Defined.

Lemma short_conversation_kept_witness :
  exists st log,
    run (scripted 3) initial_session = Some st /\
    conversation [] (scripted 3) = Some log /\
    (length log <= 21)%nat /\
    history st = log.
Proof.
  do 2 eexists.
  split; [vm_compute; reflexivity|].
  split; [vm_compute; reflexivity|].
  split; [vm_compute; lia|].
  apply (short_conversation_kept (scripted 3));
    [vm_compute; reflexivity | vm_compute; reflexivity | vm_compute; lia].
Defined.

Lemma retrieved_documents_reach_prompt_witness :
  similarity_search one_doc_store (lit "Tell me about the kayak tour.") 3
  = inr [halifax_doc] /\
  exists st' vars,
    option_map fst (query_turn (kayak_turn one_doc_store polite_llm) initial_session)
    = Some (st', vars) /\
    last_docs st' = [halifax_doc] /\
    contains (lit "Halifax offers kayak tours and spa treatments.")
             (full_prompt vars).
Proof.
  split; [reflexivity|].
  destruct (retrieved_documents_reach_prompt
              (kayak_turn one_doc_store polite_llm) initial_session
              (docs := [halifax_doc]) eq_refl)
    as (st' & vars & shown & Hturn & Hdocs & _ & _ & Hall & _).
  exists st', vars. rewrite Hturn. split; [reflexivity|]. split; [exact Hdocs|].
  exact (Forall_inv Hall).
Defined.

Lemma clean_text_after_first_space_witness :
  forallb (fun c => negb (N.eqb c 32)) [128203%N] = true /\
  clean_text ([128203%N] ++ 32%N :: lit "What services are available?")
  = lit "What services are available?".
Proof.
  split; [reflexivity|].
  apply (clean_text_after_first_space [128203%N]
                                      (lit "What services are available?")).
  reflexivity.
Defined.

Lemma embedded_text_wins_witness :
  extract_text (whole guide_page) = inr (Some (lit "Airport Zoo")) /\
  blank (lit "Airport Zoo") = false /\
  extract_standard_page four_levels no_ocr guide_page OCR_CONFIG
  = inr (lit "Airport Zoo").
Proof.
  split; [reflexivity|]. split; [reflexivity|].
  apply embedded_text_wins; reflexivity.
Defined.

Lemma blank_page_is_read_by_ocr_witness :
  extract_text (whole scanned_page) = inr None /\
  blank [] = true /\
  to_image (whole scanned_page) = inr tt /\
  exists bw,
    extract_standard_page four_levels one_word scanned_page OCR_CONFIG
    = one_word bw OCR_CONFIG /\
    map (@length Z) bw = [4%nat].
Proof.
  split; [reflexivity|]. split; [reflexivity|]. split; [reflexivity|].
  destruct (blank_page_is_read_by_ocr four_levels one_word scanned_page OCR_CONFIG
                                      (extracted := None) (img := tt)
                                      eq_refl eq_refl eq_refl)
    as (bw & Hocr & Hshape & _).
  exists bw. split; [exact Hocr | exact Hshape].
Defined.

Lemma empty_noise_pattern_drops_all_witness :
  within_bbox guide_page (0, 0, half_of (width guide_page), height guide_page)%Z
  = inr (text_region "Airport") /\
  text_or_ocr four_levels no_ocr (text_region "Airport") OCR_CONFIG
  = inr (lit "Airport") /\
  within_bbox guide_page
              (half_of (width guide_page), 0, width guide_page, height guide_page)%Z
  = inr (text_region "Zoo") /\
  text_or_ocr four_levels no_ocr (text_region "Zoo") OCR_CONFIG = inr (lit "Zoo") /\
  In [] [lit "Page"; []] /\
  extract_two_column_page four_levels no_ocr 0%Z half_of guide_page OCR_CONFIG
                          (Some [lit "Page"; []])
  = inr [].
Proof.
  split; [reflexivity|]. split; [reflexivity|]. split; [reflexivity|].
  split; [reflexivity|]. split; [right; left; reflexivity|].
  apply (empty_noise_pattern_drops_all four_levels no_ocr 0%Z half_of guide_page
           OCR_CONFIG [lit "Page"; []]
           (left_column := text_region "Airport") (left_txt := lit "Airport")
           (right_column := text_region "Zoo") (right_txt := lit "Zoo"));
    try reflexivity.
  right. left. reflexivity.
Defined.


Lemma extract_text_from_pdf_all_pages_witness :
  extract_text_from_pdf four_levels no_ocr 0%Z half_of (lit "in/notes.pdf")
                        (Some [lit "A-Z"]) None (inr [guide_page; guide_page])
  = (inr (lit "Airport Zoo" ++ NL ++ NL ++ lit "Airport Zoo"),
     [Progress 1 2; Progress 2 2; Newline]) /\
  exists pages_txt,
    length pages_txt = 2%nat /\
    lit "Airport Zoo" ++ NL ++ NL ++ lit "Airport Zoo" = join (NL ++ NL) pages_txt.
Proof.
  assert (Hrun : extract_text_from_pdf four_levels no_ocr 0%Z half_of
                   (lit "in/notes.pdf") (Some [lit "A-Z"]) None
                   (inr [guide_page; guide_page])
                 = (inr (lit "Airport Zoo" ++ NL ++ NL ++ lit "Airport Zoo"),
                    [Progress 1 2; Progress 2 2; Newline]))
    by (vm_compute; reflexivity).
  split; [exact Hrun|].
  destruct (extract_text_from_pdf_all_pages _ _ _ _ _ _ _ _ Hrun)
    as (pages & pages_txt & Hopened & Htexts & Htxt & _).
  exists pages_txt. split; [|exact Htxt].
  injection Hopened as <-. apply Forall2_length in Htexts. now rewrite <- Htexts.
Defined.

Lemma written_files_are_found_by_loader_witness :
  process_all_pdfs four_levels no_ocr 0%Z half_of always_writes (lit "in")
                   [guide_pdf] None (Some [lit "A-Z"]) None
  = inr ([(lit "A-Z Guide.txt", lit "Airport" ++ NL ++ lit "Zoo" ++ NL ++ NL
                                 ++ lit "Airport" ++ NL ++ lit "Zoo")],
         [Found 1; Processing (lit "A-Z Guide.pdf"); Progress 1 2; Progress 2 2;
          Newline; Saved (lit "A-Z Guide.txt"); Done]) /\
  endswith (lit ".txt") (lit "A-Z Guide.txt") = true.
Proof.
  assert (Hrun : process_all_pdfs four_levels no_ocr 0%Z half_of always_writes
                   (lit "in") [guide_pdf] None (Some [lit "A-Z"]) None
                 = inr ([(lit "A-Z Guide.txt",
                          lit "Airport" ++ NL ++ lit "Zoo" ++ NL ++ NL
                          ++ lit "Airport" ++ NL ++ lit "Zoo")],
                        [Found 1; Processing (lit "A-Z Guide.pdf"); Progress 1 2;
                         Progress 2 2; Newline; Saved (lit "A-Z Guide.txt"); Done]))
    by (vm_compute; reflexivity).
  split; [exact Hrun|].
  pose proof (written_files_are_found_by_loader _ _ _ _ _ _ _ _ _ _ Hrun) as Hall.
  exact (proj1 (proj2 (Forall_inv Hall))).
Defined.

Lemma pdf_and_PDF_share_output_witness :
  lit "A-Z Guide" <> [] /\
  forallb (fun x => negb (N.eqb x 47)) (lit "A-Z Guide") = true /\
  path guide_pdf = lit "in" ++ lit "/" ++ lit "A-Z Guide" ++ lit ".pdf" /\
  path guide_PDF = lit "in" ++ lit "/" ++ lit "A-Z Guide" ++ lit ".PDF" /\
  out_name guide_pdf = lit "A-Z Guide.txt" /\
  out_name guide_PDF = lit "A-Z Guide.txt".
Proof.
  split; [discriminate|]. split; [reflexivity|]. split; [reflexivity|].
  split; [reflexivity|].
  apply (pdf_and_PDF_share_output guide_pdf guide_PDF
           (lit "in") (base := lit "A-Z Guide"));
    [discriminate | reflexivity | reflexivity | reflexivity].
Defined.

End MoreSamples.
